(** * gofilededup: the duplicate index, the tie-break, the flatten namer
      and the action executor of [cmd/root.go], embedded in Rocq.

    The program walks a directory tree, fingerprints every regular
    non-empty file with SHA-256, keeps one canonical [PathTime] per
    fingerprint in the map [files] and collects the others in the set
    [dupFiles]; afterwards it copies, moves or removes the duplicates and
    optionally flattens the canonical files into one directory.

    Conventions of the embedding
    - a Go [string] is a [string] of 8-bit characters, so [String.length]
      is Go's [len] (a count of bytes);
    - a [time.Time] obtained from [FileInfo.ModTime] is the instant it
      denotes, an integer number of nanoseconds ([Z]); [Time.After] is [<]
      read from the right, and [==] on such values is equality of instants;
    - Go's [int] and [int64] are [Z]; the one increment of the program is
      written with its 64-bit wrap-around;
    - [map[string]PathTime] is a [gmap], [map[PathTime]bool] (only ever
      storing [true]) is a [gset]; the order in which [range] enumerates a
      map is not fixed by Go and is a parameter of the environment;
    - the operating system is a parameter: a type of disks with the
      mutating calls as state transformers and the read-only calls as
      observations. *)

From Stdlib Require Import ZArith Ascii String List Permutation.
From stdpp Require Import base strings gmap list pretty.

Local Open Scope string_scope.
Local Open Scope list_scope.
Local Open Scope Z_scope.

(** ** Paths: the Unix flavour of [path/filepath] *)

Module filepath.

Definition Separator : ascii := "/"%char.

(** The pieces between separators, empty pieces included:
    ["a//b"] gives [["a"; ""; "b"]], [""] gives [[""]]. *)
Fixpoint split (path : string) : list string :=
  match path with
  | EmptyString => [ EmptyString ]
  | String c rest =>
      if Ascii.eqb c Separator then EmptyString :: split rest
      else match split rest with
           | x :: xs => String c x :: xs
           | [] => [ String c EmptyString ]
           end
  end.

Fixpoint join_with (sep : string) (elems : list string) : string :=
  match elems with
  | [] => EmptyString
  | [ x ] => x
  | x :: xs => x +:+ sep +:+ join_with sep xs
  end.

Definition rooted (path : string) : bool :=
  match path with
  | String c _ => Ascii.eqb c Separator
  | EmptyString => false
  end.

(** One element of the lexical clean-up; [out] is the cleaned prefix,
    most recent element first. *)
Definition clean_step (root : bool) (out : list string) (elem : string)
  : list string :=
  if String.eqb elem "" then out
  else if String.eqb elem "." then out
  else if String.eqb elem ".." then
    match out with
    | top :: below => if String.eqb top ".." then elem :: out else below
    | [] => if root then [] else [ elem ]
    end
  else elem :: out.

Definition Clean (path : string) : string :=
  let root := rooted path in
  let out := rev (fold_left (clean_step root) (split path) []) in
  if root then "/" +:+ join_with "/" out
  else match out with
       | [] => "."
       | _ => join_with "/" out
       end.

(** [strings.Join(elem[i:], "/")] from the first non-empty element on,
    cleaned; the empty string when every element is empty. *)
Fixpoint Join (elem : list string) : string :=
  match elem with
  | [] => EmptyString
  | e :: rest =>
      if String.eqb e "" then Join rest else Clean (join_with "/" elem)
  end.

(** Everything up to and including the last separator, cleaned. *)
Definition Dir (path : string) : string :=
  match split path with
  | [] | [ _ ] => Clean ""
  | pieces => Clean (join_with "/" (removelast pieces) +:+ "/")
  end.

Fixpoint drop_trailing_empty (pieces : list string) : list string :=
  match pieces with
  | [] => []
  | x :: xs =>
      match drop_trailing_empty xs with
      | [] => if String.eqb x "" then [] else [ x ]
      | ys => x :: ys
      end
  end.

(** The last element of the path, trailing separators removed. *)
Definition Base (path : string) : string :=
  if String.eqb path "" then "."
  else match last (drop_trailing_empty (split path)) with
       | Some x => x
       | None => "/"
       end.

End filepath.

(** ** The data model *)

(** [type PathTime struct { Path string; Time time.Time }] *)
Record PathTime := { Path : string; Time : Z }.

#[global] Instance PathTime_eq_dec : EqDecision PathTime.
Proof. solve_decision. Defined.

#[global] Program Instance PathTime_countable : Countable PathTime :=
  inj_countable' (fun r => (Path r, Time r))
                 (fun p => {| Path := fst p; Time := snd p |}) _.
Next Obligation. by intros []. Qed.

(** [t.After(u)]: the instant [t] is strictly later than [u]. *)
Definition After (t u : Z) : bool := u <? t.

(** Go's builtin [len] on a string: its number of bytes. *)
Definition len (s : string) : nat := String.length s.

(** The two process-wide maps, [files] and [dupFiles]. *)
Record Index := {
  files : gmap string PathTime;
  dupFiles : gset PathTime
}.

Definition empty_index : Index := {| files := ∅; dupFiles := ∅ |}.

(** The condition of the [if] on line 98: the record already in [files]
    gives way to the one just walked. *)
Definition replaces (old fileInfo : PathTime) : bool :=
  After (Time old) (Time fileInfo) || (len (Path fileInfo) <? len (Path old))%nat.

(** Lines 90 to 105 of the walk callback: the update of the two maps for
    one hashed file. *)
Definition observe (sha : string) (fileInfo : PathTime) (ix : Index) : Index :=
  match files ix !! sha with
  | None => {| files := <[sha := fileInfo]> (files ix); dupFiles := dupFiles ix |}
  | Some old =>
      let ix1 :=
        if replaces old fileInfo
        then {| files := <[sha := fileInfo]> (files ix);
                dupFiles := dupFiles ix ∖ {[ old ]} |}
        else ix in
      {| files := files ix1; dupFiles := {[ fileInfo ]} ∪ dupFiles ix1 |}
  end.

Definition observe_all (obs : list (string * PathTime)) (ix : Index) : Index :=
  fold_left (fun acc o => observe (fst o) (snd o) acc) obs ix.

(** What one more record with the fingerprint does to its entry in
    [files]. *)
Definition resolve (cur : option PathTime) (r : PathTime) : option PathTime :=
  match cur with
  | None => Some r
  | Some old => Some (if replaces old r then r else old)
  end.

(** The records observed with fingerprint [s], in order. *)
Definition records_of (s : string) (obs : list (string * PathTime))
  : list PathTime :=
  snd <$> filter (fun o => fst o = s) obs.


(** The tie-break as the specification words it, for comparison with
    [replaces]: the length of a path counted in characters, a path being
    UTF-8 text. A byte of the form 10xxxxxx continues a character, every
    other byte starts one. *)
Definition continuation_byte (c : ascii) : bool :=
  let n := nat_of_ascii c in ((128 <=? n) && (n <? 192))%nat.

Fixpoint char_count (s : string) : nat :=
  match s with
  | EmptyString => O
  | String c rest =>
      ((if continuation_byte c then 0 else 1) + char_count rest)%nat
  end.

Definition spec_replaces (old new : PathTime) : bool :=
  After (Time old) (Time new)
  || (char_count (Path new) <? char_count (Path old))%nat.

(** The one-character file name e-acute, the two bytes C3 A9. *)
Definition e_acute : string :=
  String (ascii_of_nat 195) (String (ascii_of_nat 169) EmptyString).

(** The command-line flags, package-level variables in the source. *)
Record Flags := {
  ddir : string;
  dedup : bool;
  rdup : bool;
  remove : bool;
  fdir : string;
  flatten : bool;
  dryrun : bool
}.

(** Go's [error] values, as far as the program looks at them: their text
    and whether [errors.Is(err, os.ErrNotExist)] holds. *)
Inductive error :=
| ErrNotExist (msg : string)
| ErrOther (msg : string).

Definition Error_ (e : error) : string :=
  match e with ErrNotExist m | ErrOther m => m end.

Definition is_ErrNotExist (e : option error) : bool :=
  match e with Some (ErrNotExist _) => true | _ => false end.

Definition Errorf (msg : string) : error := ErrOther msg.

(** One invocation of the walk callback by [filepath.Walk]: the path, the
    error handed in and, when there is none, the [os.FileInfo]. *)
Record Visit := {
  v_path : string;
  v_err : option error;
  v_isdir : bool;
  v_size : Z;
  v_mtime : Z
}.

(** The calls that change the disk. *)
Inductive Op :=
| MkdirAll (path : string)
| Create (path : string)
| CopyData (src dst : string)
| Sync (path : string)
| CloseOut (path : string)
| Rename (src dst : string)
| Remove (path : string).

Inductive Level := Info | Warn | ErrorLevel | Fatal.

(** What a run does, in order: log lines, read-only calls, and the
    mutating calls with their results. *)
Inductive Event :=
| EvLog (lvl : Level) (msg : string)
| EvStat (path : string)
| EvOpen (path : string)
| EvRead (path : string)
| EvClose (path : string)
| EvOp (op : Op) (res : option error).

Definition readonly (e : Event) : bool :=
  match e with EvOp _ _ => false | _ => true end.

(** The environment of a run. [walk_visits root d] is the sequence of
    callback invocations [filepath.Walk root] makes on disk [d] as long as
    the callback returns [nil]; [os_ReadAll] is what [io.Copy] streams out
    of an opened file; [range_dupFiles] and [range_files] are the orders
    in which [range] enumerates the two maps. *)
Record Env := {
  FS : Type;
  sha256_hex : string -> string;
  walk_visits : string -> FS -> list Visit;
  os_Stat : string -> FS -> option error;
  os_Open : string -> FS -> option error;
  os_ReadAll : string -> FS -> error + string;
  os_exec : Op -> FS -> option error * FS;
  range_dupFiles : gset PathTime -> list PathTime;
  range_files : gmap string PathTime -> list PathTime
}.

(** Go's [int] increment. *)
Definition incr64 (x : Z) : Z :=
  let y := (x + 1) mod 2 ^ 64 in
  if y <? 2 ^ 63 then y else y - 2 ^ 64.

(** [fmt.Sprint(name, x)] for a string followed by an int: no space is put
    between the operands when one of them is a string. *)
Definition Sprint (name : string) (x : Z) : string := name +:+ pretty x.

(** ** The flatten namer (lines 145 to 151) *)

Definition flattenName (filenames : gmap string Z) (path : string)
  : string * gmap string Z :=
  let flattenFilename := filepath.Base path in
  match filenames !! flattenFilename with
  | Some x =>
      let flattenFilename := Sprint flattenFilename x in
      (flattenFilename,
       <[flattenFilename := incr64 (default 0 (filenames !! flattenFilename))]>
         filenames)
  | None => (flattenFilename, <[flattenFilename := 1]> filenames)
  end.

(** The names the loop on line 141 hands out, in the order of the range. *)
Fixpoint flatten_names (filenames : gmap string Z) (fs : list PathTime)
  : list string :=
  match fs with
  | [] => []
  | file :: rest =>
      let '(name, filenames') := flattenName filenames (Path file) in
      name :: flatten_names filenames' rest
  end.

(** ** The program *)

(** How a computation ends: it returns, or the process exits
    ([logrus.Fatal] calls [os.Exit(1)]). *)
Inductive Outcome (A : Type) :=
| Ret (a : A)
| Exit (status : Z).
Arguments Ret {A} a.
Arguments Exit {A} status.

Section Program.

Context (E : Env) (cfg : Flags).

Record World := {
  index : Index;
  disk : FS E;
  trace : list Event
}.

(** State passing over [World], stopped by an exit of the process. *)
Definition M (A : Type) : Type := World -> Outcome A * World.

Definition ret {A} (a : A) : M A := fun w => (Ret a, w).

Definition bind {A B} (m : M A) (k : A -> M B) : M B :=
  fun w =>
    match m w with
    | (Ret a, w') => k a w'
    | (Exit s, w') => (Exit s, w')
    end.

Notation "'do' x <- m ; k" := (bind m (fun x => k))
  (at level 10, x name, m at level 100, k at level 200).
Notation "m ;; k" := (bind m (fun _ => k))
  (at level 100, k at level 200, right associativity).

Definition emit (e : Event) : M unit :=
  fun w => (Ret tt, {| index := index w; disk := disk w;
                       trace := trace w ++ [ e ] |}).

Definition logf (lvl : Level) (msg : string) : M unit := emit (EvLog lvl msg).

(** [logrus.Fatal]: the line is logged and the process exits with 1;
    deferred calls do not run. *)
Definition logFatal {A} (msg : string) : M A :=
  fun w => (Exit 1, {| index := index w; disk := disk w;
                       trace := trace w ++ [ EvLog Fatal msg ] |}).

Definition stat (path : string) : M (option error) :=
  fun w => (Ret (os_Stat E path (disk w)),
            {| index := index w; disk := disk w;
               trace := trace w ++ [ EvStat path ] |}).

Definition open (path : string) : M (option error) :=
  fun w => (Ret (os_Open E path (disk w)),
            {| index := index w; disk := disk w;
               trace := trace w ++ [ EvOpen path ] |}).

Definition readAll (path : string) : M (error + string) :=
  fun w => (Ret (os_ReadAll E path (disk w)),
            {| index := index w; disk := disk w;
               trace := trace w ++ [ EvRead path ] |}).

Definition close (path : string) : M unit := emit (EvClose path).

(** A mutating call: the only place where the disk changes. *)
Definition exec (op : Op) : M (option error) :=
  fun w =>
    let '(res, d) := os_exec E op (disk w) in
    (Ret res, {| index := index w; disk := d;
                 trace := trace w ++ [ EvOp op res ] |}).

Definition update_index (f : Index -> Index) : M unit :=
  fun w => (Ret tt, {| index := f (index w); disk := disk w;
                       trace := trace w |}).

Definition get_index : M Index := fun w => (Ret (index w), w).

(** The callback given to [filepath.Walk] (lines 55 to 106). *)
Definition walkFn (v : Visit) : M (option error) :=
  match v_err v with
  | Some e => logf ErrorLevel (Error_ e) ;; ret (Some e)
  | None =>
      if v_isdir v then ret None
      else if v_size v =? 0 then
        logf Info ("Found: " +:+ v_path v +:+ " : SKIPPING filesize:0") ;;
        ret None
      else
        do err <- open (v_path v) ;
        match err with
        | Some e => logf ErrorLevel (Error_ e) ;; ret (Some e)
        | None =>
            do r <- readAll (v_path v) ;
            match r with
            | inl e => logFatal (Error_ e)
            | inr content =>
                let sha := sha256_hex E content in
                logf Info ("Found: " +:+ v_path v +:+ " : " +:+ sha) ;;
                update_index
                  (observe sha {| Path := v_path v; Time := v_mtime v |}) ;;
                close (v_path v) ;;
                ret None
            end
        end
  end.

(** [filepath.Walk] with this callback: the visits in order, stopping at
    the first error the callback returns. *)
Fixpoint walk (vs : list Visit) : M (option error) :=
  match vs with
  | [] => ret None
  | v :: rest =>
      do err <- walkFn v ;
      match err with
      | Some e => ret (Some e)
      | None => walk rest
      end
  end.

Definition destination (filename destinationDir newFilename : string) : string :=
  if String.eqb newFilename ""
  then filepath.Join [ destinationDir; filename ]
  else filepath.Join [ destinationDir; newFilename ].

(** [copyToDirectory] (lines 164 to 200). The deferred closure assigns the
    result of [out.Close()] to the local [err], which is not the result
    of the function: the value returned is fixed before it runs. *)
Definition copyToDirectory (filename destinationDir newFilename : string)
  : M (option error) :=
  let full := destination filename destinationDir newFilename in
  logf Warn ("Copying " +:+ filename +:+ " to " +:+ full) ;;
  if dryrun cfg then ret None
  else
    do err <- exec (MkdirAll (filepath.Dir full)) ;
    match err with
    | Some e => logf ErrorLevel (Error_ e) ;; ret (Some e)
    | None =>
        do err <- open filename ;
        match err with
        | Some e => ret (Some e)
        | None =>
            do err <- exec (Create full) ;
            match err with
            | Some e => close filename ;; ret (Some e)
            | None =>
                do err <- exec (CopyData filename full) ;
                match err with
                | Some e =>
                    exec (CloseOut full) ;; close filename ;; ret (Some e)
                | None =>
                    do res <- exec (Sync full) ;
                    exec (CloseOut full) ;; close filename ;; ret res
                end
            end
        end
    end.

(** [moveToDirectory] (lines 202 to 226). *)
Definition moveToDirectory (filename destinationDir newFilename : string)
  : M (option error) :=
  let full := destination filename destinationDir newFilename in
  logf Warn ("Moving " +:+ filename +:+ " to " +:+ full) ;;
  if dryrun cfg then ret None
  else
    do err <- exec (MkdirAll (filepath.Dir full)) ;
    match err with
    | Some e => logf ErrorLevel (Error_ e) ;; ret (Some e)
    | None =>
        do err <- exec (Rename filename full) ;
        match err with
        | Some e => logf ErrorLevel (Error_ e) ;; ret (Some e)
        | None => ret None
        end
    end.

(** The loops on lines 115 and 120: the result of each call is dropped. *)
Fixpoint move_dups (ds : list PathTime) : M unit :=
  match ds with
  | [] => ret tt
  | file :: rest =>
      moveToDirectory (Path file) (ddir cfg) (Path file) ;; move_dups rest
  end.

Fixpoint copy_dups (ds : list PathTime) : M unit :=
  match ds with
  | [] => ret tt
  | file :: rest =>
      copyToDirectory (Path file) (ddir cfg) (Path file) ;; copy_dups rest
  end.

(** The path handed to [os.Remove] on line 127. *)
Definition remove_target (root : string) (file : PathTime) : string :=
  filepath.Join [ filepath.Dir (filepath.Clean root); Path file ].

(** The loop on line 126; its error leaves [RunE]. *)
Fixpoint remove_dups (root : string) (ds : list PathTime) : M (option error) :=
  match ds with
  | [] => ret None
  | file :: rest =>
      let filename := remove_target root file in
      logf Warn ("Removing " +:+ filename) ;;
      if dryrun cfg then remove_dups root rest
      else
        do err <- exec (Remove filename) ;
        match err with
        | Some e => ret (Some e)
        | None => remove_dups root rest
        end
  end.

(** Lines 112 to 136. *)
Definition handle_dups (root : string) : M (option error) :=
  do ix <- get_index ;
  if dedup cfg then
    if rdup cfg then
      logf Info ("Duplicate files will be moved to " +:+ ddir cfg) ;;
      move_dups (range_dupFiles E (dupFiles ix)) ;;
      ret None
    else
      logf Info ("Duplicate files will be copied to " +:+ ddir cfg) ;;
      copy_dups (range_dupFiles E (dupFiles ix)) ;;
      ret None
  else if rdup cfg then
    logf Info ("Duplicate files will be removed from " +:+ root) ;;
    remove_dups root (range_dupFiles E (dupFiles ix))
  else ret None.

(** The loop on line 141, with the map [filenames] threaded through. *)
Fixpoint flatten_files (filenames : gmap string Z) (fs : list PathTime)
  : M unit :=
  match fs with
  | [] => ret tt
  | file :: rest =>
      let '(flattenFilename, filenames') := flattenName filenames (Path file) in
      (if remove cfg
       then moveToDirectory (Path file) (fdir cfg) flattenFilename
       else copyToDirectory (Path file) (fdir cfg) flattenFilename) ;;
      flatten_files filenames' rest
  end.

(** Lines 138 to 159. *)
Definition handle_flatten : M unit :=
  if flatten cfg then
    logf Info ("Non duplicate files will be flatten in " +:+ fdir cfg) ;;
    do ix <- get_index ;
    flatten_files ∅ (range_files E (files ix))
  else ret tt.

(** [rootCmd.RunE] (lines 40 to 161). *)
Definition RunE (args : list string) : M (option error) :=
  match args with
  | [ root ] =>
      do st <- stat root ;
      if is_ErrNotExist st then
        ret (Some (Errorf "input directory to deduplicate file must exist"))
      else
        do pre <-
          (if flatten cfg then
             do st <- stat (fdir cfg) ;
             if negb (is_ErrNotExist st)
             then ret (Some (Errorf "flatten directory must not exist"))
             else ret None
           else ret None) ;
        match pre with
        | Some e => ret (Some e)
        | None =>
            do err <- (fun w => walk (walk_visits E root (disk w)) w) ;
            match err with
            | Some e => ret (Some e)
            | None =>
                do err <- handle_dups root ;
                match err with
                | Some e => ret (Some e)
                | None => handle_flatten ;; ret None
                end
            end
        end
  | _ =>
      ret (Some (Errorf
        "requires the path to the input directory to deduplicate files"))
  end.

(** The world a process starts in: both maps empty. *)
Definition init_world (d : FS E) : World :=
  {| index := empty_index; disk := d; trace := [] |}.

(** [Execute]: the exit status of the process. *)
Definition Execute (args : list string) (w : World) : Z * World :=
  match RunE args w with
  | (Ret None, w') => (0, w')
  | (Ret (Some _), w') => (1, w')
  | (Exit s, w') => (s, w')
  end.

End Program.

Arguments index {E} _.
Arguments disk {E} _.
Arguments trace {E} _.

(** ** A small concrete environment

    A tree of regular files given by path, modification time and content;
    the disk is the list of the mutating calls that succeeded; [bad] says
    which mutating calls fail and [present] which paths [os.Stat] finds.
    The digest is a stand-in (the content itself); the maps are enumerated
    in the order of their [elements]. *)

Record SimFile := {
  sf_path : string;
  sf_mtime : Z;
  sf_content : string
}.

Definition sim_visit (f : SimFile) : Visit :=
  {| v_path := sf_path f; v_err := None; v_isdir := false;
     v_size := Z.of_nat (String.length (sf_content f)); v_mtime := sf_mtime f |}.

Fixpoint sim_read (tree : list SimFile) (path : string) : error + string :=
  match tree with
  | [] => inl (ErrNotExist ("open " +:+ path +:+ ": no such file or directory"))
  | f :: rest =>
      if String.eqb (sf_path f) path then inr (sf_content f)
      else sim_read rest path
  end.

Definition simEnv (tree : list SimFile) (present : string -> bool)
    (bad : Op -> option error) : Env :=
  {| FS := list Op;
     sha256_hex := fun content => content;
     walk_visits := fun _ _ => map sim_visit tree;
     os_Stat := fun path _ =>
       if present path then None
       else Some (ErrNotExist ("stat " +:+ path +:+ ": no such file or directory"));
     os_Open := fun path _ =>
       match sim_read tree path with inl e => Some e | inr _ => None end;
     os_ReadAll := fun path _ => sim_read tree path;
     os_exec := fun op d =>
       match bad op with
       | Some e => (Some e, d)
       | None => (None, d ++ [ op ])
       end;
     range_dupFiles := elements;
     range_files := fun m => snd <$> map_to_list m |}.

Definition no_failure : Op -> option error := fun _ => None.


(** ** Vocabulary of the statements *)

Section Vocabulary.

Context {E : Env}.

(** Every event a computation adds to the trace satisfies [P]. *)
Definition emits {A} (P : Event -> Prop) (m : M E A) : Prop :=
  forall w, exists t, trace (snd (m w)) = trace w ++ t /\ Forall P t.

Definition keeps_disk {A} (m : M E A) : Prop :=
  forall w, disk (snd (m w)) = disk w.

(** The record the callback builds for a visit (line 92). *)
Definition record_of (v : Visit) : PathTime :=
  {| Path := v_path v; Time := v_mtime v |}.

(** On disk [d] the visit is a regular, non-empty file that opens and
    reads without error, with content [c]. *)
Definition hashes_to (d : FS E) (v : Visit) (c : string) : Prop :=
  v_err v = None /\ v_isdir v = false /\ v_size v <> 0 /\
  os_Open E (v_path v) d = None /\ os_ReadAll E (v_path v) d = inr c.

(** The visit is a directory, an empty file, or a file whose digest is
    not [s]. *)
Definition passes_by (d : FS E) (s : string) (v : Visit) : Prop :=
  v_err v = None /\
  (v_isdir v = true \/ v_size v = 0 \/
   exists c, hashes_to d v c /\ sha256_hex E c <> s).

(** The canonical record of fingerprint [s] once the walk of [vs] on a
    fresh process is over. *)
Definition canonical_after (d : FS E) (vs : list Visit) (s : string)
  : option PathTime :=
  files (index (snd (walk E vs (init_world E d)))) !! s.

(** [r] was built from a visit of [vs] to a regular file of non-zero
    size. *)
Definition from_nonempty_file (vs : list Visit) (r : PathTime) : Prop :=
  exists v, v ∈ vs /\ record_of v = r /\
            v_err v = None /\ v_isdir v = false /\ v_size v <> 0.

(** Everything in the two maps, and every file opened or read, comes
    from a visit of [vs] to a regular file of non-zero size. *)
Definition only_nonempty (vs : list Visit) (w : World E) : Prop :=
  (forall s r, files (index w) !! s = Some r -> from_nonempty_file vs r) /\
  (forall r, r ∈ dupFiles (index w) -> from_nonempty_file vs r) /\
  (forall p, EvOpen p ∈ trace w \/ EvRead p ∈ trace w ->
     exists v, v ∈ vs /\ v_path v = p /\ v_isdir v = false /\ v_size v <> 0).

Definition skip_notice (v : Visit) : Event :=
  EvLog Info ("Found: " +:+ v_path v +:+ " : SKIPPING filesize:0").

Definition add_event (e : Event) (w : World E) : World E :=
  {| index := index w; disk := disk w; trace := trace w ++ [ e ] |}.

End Vocabulary.




(** The mutating calls a run may make: [os.Remove] only without [dedup]. *)
Definition allowed_op (cfg : Flags) (op : Op) : Prop :=
  match op with
  | Remove _ => dedup cfg = false
  | _ => True
  end.

(** ** Inputs used in the examples *)

(** Two copies of one content: [a/x.txt] is the newer one. *)
Definition newer_copy : PathTime := {| Path := "a/x.txt"; Time := 20 |}.
Definition older_copy : PathTime := {| Path := "b/x.txt"; Time := 10 |}.


(** Two names of two bytes each, one of them a single character. *)
Definition two_letters : PathTime := {| Path := "ab"; Time := 0 |}.
Definition one_letter : PathTime := {| Path := e_acute; Time := 0 |}.

(** Three canonical files with the same base name. *)
Definition three_x : list PathTime :=
  [ {| Path := "a/x"; Time := 1 |};
    {| Path := "b/x"; Time := 2 |};
    {| Path := "c/x"; Time := 3 |} ].

(** A tree with two files of one content under the directory [a/b]. *)
Definition pair_tree : list SimFile :=
  [ {| sf_path := "a/b/x"; sf_mtime := 1; sf_content := "A" |};
    {| sf_path := "a/b/y"; sf_mtime := 2; sf_content := "A" |} ].

Definition pair_env : Env :=
  simEnv pair_tree (fun path => String.eqb path "a/b") no_failure.

Definition visit_x : Visit :=
  {| v_path := "a/b/x"; v_err := None; v_isdir := false; v_size := 1;
     v_mtime := 1 |}.
Definition visit_y : Visit :=
  {| v_path := "a/b/y"; v_err := None; v_isdir := false; v_size := 1;
     v_mtime := 2 |}.

(** A file of size zero. *)
Definition empty_visit : Visit :=
  {| v_path := "a/b/empty"; v_err := None; v_isdir := false; v_size := 0;
     v_mtime := 5 |}.

(** Every flag set, dry-run included. *)
Definition dry_everything : Flags :=
  {| ddir := "./dupdump"; dedup := false; rdup := true; remove := true;
     fdir := "./flatten"; flatten := true; dryrun := true |}.

(** [--dedup --rdup]: move the duplicates aside. *)
Definition move_aside : Flags :=
  {| ddir := "./dupdump"; dedup := true; rdup := true; remove := false;
     fdir := "./flatten"; flatten := false; dryrun := false |}.

(** [--rdup] alone: remove the duplicates in place. *)
Definition remove_in_place : Flags :=
  {| ddir := "./dupdump"; dedup := false; rdup := true; remove := false;
     fdir := "./flatten"; flatten := false; dryrun := false |}.

(** [--dedup] alone: copy the duplicates aside. *)
Definition copy_aside : Flags :=
  {| ddir := "./dupdump"; dedup := true; rdup := false; remove := false;
     fdir := "./flatten"; flatten := false; dryrun := false |}.

(** [os.Remove] fails on a path that is not a file of the tree. *)
Definition remove_needs_file (tree : list SimFile) (op : Op) : option error :=
  match op with
  | Remove path =>
      match sim_read tree path with
      | inl _ =>
          Some (ErrNotExist ("remove " +:+ path +:+ ": no such file or directory"))
      | inr _ => None
      end
  | _ => None
  end.

Definition remove_env : Env :=
  simEnv pair_tree (fun path => String.eqb path "a/b")
         (remove_needs_file pair_tree).

(** No directory can be created. *)
Definition mkdir_denied (op : Op) : option error :=
  match op with
  | MkdirAll path => Some (ErrOther ("mkdir " +:+ path +:+ ": permission denied"))
  | _ => None
  end.

Definition denied_env : Env :=
  simEnv pair_tree (fun path => String.eqb path "a/b") mkdir_denied.


(** The mutating calls of a trace, with their results. *)
Fixpoint mutations (t : list Event) : list (Op * option error) :=
  match t with
  | [] => []
  | EvOp op res :: rest => (op, res) :: mutations rest
  | _ :: rest => mutations rest
  end.

(** ** Vocabulary of the further properties *)

(** An event of the remove-in-place loop over the records [ds] that
    deletes nothing but the cleaned walked path of one of them. *)
Definition removes_walked (ds : list PathTime) (e : Event) : Prop :=
  match e with
  | EvOp (Remove path) _ =>
      exists file, file ∈ ds /\ path = filepath.Clean (Path file)
  | EvOp _ _ => False
  | _ => True
  end.

(** On disk [d] the callback returns [nil] for the visit: a directory, an
    empty file, or a file that is hashed. *)
Definition walks_on {E : Env} (d : FS E) (v : Visit) : Prop :=
  v_err v = None /\
  (v_isdir v = true \/ v_size v = 0 \/ exists c, hashes_to d v c).

(** On disk [d] the callback returns the error [e] for the visit: the
    walk handed it in, or the file does not open. *)
Definition fails_with {E : Env} (d : FS E) (v : Visit) (e : error) : Prop :=
  v_err v = Some e \/
  (v_err v = None /\ v_isdir v = false /\ v_size v <> 0 /\
   os_Open E (v_path v) d = Some e).

(** On disk [d] the file of the visit opens and then fails to read. *)
Definition read_fails {E : Env} (d : FS E) (v : Visit) (e : error) : Prop :=
  v_err v = None /\ v_isdir v = false /\ v_size v <> 0 /\
  os_Open E (v_path v) d = None /\ os_ReadAll E (v_path v) d = inl e.

(** The two checks before the walk pass: the input directory is not
    reported missing and, with [flatten], the flatten directory is. *)
Definition preconditions_hold {E : Env} (cfg : Flags) (root : string)
    (d : FS E) : Prop :=
  is_ErrNotExist (os_Stat E root d) = false /\
  (flatten cfg = true -> is_ErrNotExist (os_Stat E (fdir cfg) d) = true).

(** What [RunE] does once the walk has returned [nil]. *)
Definition after_walk (E : Env) (cfg : Flags) (root : string)
  : M E (option error) :=
  bind E (handle_dups E cfg root) (fun err =>
    match err with
    | Some e => ret E (Some e)
    | None => bind E (handle_flatten E cfg) (fun _ => ret E None)
    end).

(** A second concrete environment for failures during the walk: the
    visits are given, every file holds the content [A], and the paths
    selected by [unopenable] and [unreadable] fail to open or to read. *)
Definition faulty_env (visits : list Visit)
    (unopenable unreadable : string -> bool) : Env :=
  {| FS := list Op;
     sha256_hex := fun content => content;
     walk_visits := fun _ _ => visits;
     os_Stat := fun path _ =>
       if String.eqb path "a/b" then None
       else Some (ErrNotExist ("stat " +:+ path +:+ ": no such file or directory"));
     os_Open := fun path _ =>
       if unopenable path
       then Some (ErrOther ("open " +:+ path +:+ ": permission denied"))
       else None;
     os_ReadAll := fun path _ =>
       if unreadable path
       then inl (ErrOther ("read " +:+ path +:+ ": input/output error"))
       else inr "A";
     os_exec := fun op d => (None, d ++ [ op ]);
     range_dupFiles := elements;
     range_files := fun m => snd <$> map_to_list m |}.

Definition is_y (path : string) : bool := String.eqb path "a/b/y".
Definition never (path : string) : bool := false.

(** The mutating calls the flags allow: nothing in a dry run; directories
    are created only for [dedup] or [flatten]; files are created and
    written only when copying ([dedup] without [rdup], [flatten] without
    [remove]); renamed only when moving ([dedup] with [rdup], [flatten]
    with [remove]); removed only for [rdup] without [dedup]. *)
Definition permitted (cfg : Flags) (e : Event) : Prop :=
  match e with
  | EvOp op _ =>
      dryrun cfg = false /\
      match op with
      | MkdirAll _ => dedup cfg = true \/ flatten cfg = true
      | Create _ | CopyData _ _ | Sync _ | CloseOut _ =>
          (dedup cfg = true /\ rdup cfg = false) \/
          (flatten cfg = true /\ remove cfg = false)
      | Rename _ _ =>
          (dedup cfg = true /\ rdup cfg = true) \/
          (flatten cfg = true /\ remove cfg = true)
      | Remove _ => dedup cfg = false /\ rdup cfg = true
      end
  | _ => True
  end.

(** The values [init] gives the flags (lines 235 to 248). *)
Definition default_flags : Flags :=
  {| ddir := "./dupdump"; dedup := false; rdup := false; remove := false;
     fdir := "./flatten"; flatten := false; dryrun := false |}.

(** ** The earlier revision of [cmd/root.go]

    The second text of the source file: no [dupFiles], no output modes;
    the callback itself moves the losing file to the dump directory, and
    [Run] drops the result of the walk. *)

Module earlier.

Record Flags := {
  dupDump : string;
  dryrun : bool
}.

Section Program.

Context (E : Env) (cfg : Flags).

Notation "'do' x <- m ; k" := (bind E m (fun x => k))
  (at level 10, x name, m at level 100, k at level 200).
Notation "m ;; k" := (bind E m (fun _ => k))
  (at level 100, k at level 200, right associativity).

(** [moveToDump] (lines 328 to 349). *)
Definition moveToDump (filename : string) : M E (option error) :=
  let full := filepath.Join [ dupDump cfg; filename ] in
  if dryrun cfg then
    logf E Warn ("Moving " +:+ filename +:+ " to " +:+ full) ;;
    ret E None
  else
    do err <- exec E (MkdirAll (filepath.Dir full)) ;
    match err with
    | Some e => logf E ErrorLevel (Error_ e) ;; ret E (Some e)
    | None =>
        logf E Warn ("Moving " +:+ filename +:+ " to " +:+ full) ;;
        do err <- exec E (Rename filename full) ;
        match err with
        | Some e => logf E ErrorLevel (Error_ e) ;; ret E (Some e)
        | None => ret E None
        end
    end.

(** [files[sha] = PathTime{path, info.ModTime()}]. *)
Definition set_canonical (sha : string) (fileInfo : PathTime) (ix : Index)
  : Index :=
  {| files := <[sha := fileInfo]> (files ix); dupFiles := dupFiles ix |}.

(** The callback given to [filepath.Walk] (lines 283 to 324). *)
Definition walkFn (v : Visit) : M E (option error) :=
  match v_err v with
  | Some e => logf E ErrorLevel (Error_ e) ;; ret E (Some e)
  | None =>
      if v_isdir v then ret E None
      else
        logf E Info (v_path v) ;;
        if v_size v =? 0 then ret E None
        else
          do err <- open E (v_path v) ;
          match err with
          | Some e => logf E ErrorLevel (Error_ e) ;; ret E (Some e)
          | None =>
              do r <- readAll E (v_path v) ;
              match r with
              | inl e => logFatal E (Error_ e)
              | inr content =>
                  let sha := sha256_hex E content in
                  let fileInfo := {| Path := v_path v; Time := v_mtime v |} in
                  do ix <- get_index E ;
                  match files ix !! sha with
                  | None =>
                      update_index E (set_canonical sha fileInfo) ;;
                      close E (v_path v) ;;
                      ret E None
                  | Some old =>
                      if After (Time old) (v_mtime v)
                         || (len (v_path v) <? len (Path old))%nat
                      then
                        update_index E (set_canonical sha fileInfo) ;;
                        do res <- moveToDump (Path old) ;
                        close E (v_path v) ;;
                        ret E res
                      else
                        do res <- moveToDump (v_path v) ;
                        close E (v_path v) ;;
                        ret E res
                  end
              end
          end
  end.

Fixpoint walk (vs : list Visit) : M E (option error) :=
  match vs with
  | [] => ret E None
  | v :: rest =>
      do err <- walkFn v ;
      match err with
      | Some e => ret E (Some e)
      | None => walk rest
      end
  end.

(** [rootCmd.Run] (lines 282 to 325): the error of the walk is dropped. *)
Definition Run (root : string) : M E unit :=
  (fun w => walk (walk_visits E root (disk w)) w) ;; ret E tt.

End Program.

End earlier.

(** [--dups ./dupdump], for real and as a dry run. *)
Definition earlier_real : earlier.Flags :=
  {| earlier.dupDump := "./dupdump"; earlier.dryrun := false |}.
Definition earlier_dry : earlier.Flags :=
  {| earlier.dupDump := "./dupdump"; earlier.dryrun := true |}.

(** The file that loses the tie-break between the canonical record and
    the one just walked. *)
Definition loser (old fileInfo : PathTime) : PathTime :=
  if replaces old fileInfo then old else fileInfo.

(** The observations a walk hands to the index: one per regular,
    non-empty file, with the digest of what is read from it on disk [d]. *)
Definition observations {E : Env} (d : FS E) (vs : list Visit)
  : list (string * PathTime) :=
  flat_map (fun v =>
    if v_isdir v then []
    else if v_size v =? 0 then []
    else match os_ReadAll E (v_path v) d with
         | inr content => [ (sha256_hex E content, record_of v) ]
         | inl _ => []
         end) vs.

(** The line the flatten loop logs for a file and the name chosen for it. *)
Definition flatten_notice (cfg : Flags) (file : PathTime) (name : string)
  : Event :=
  EvLog Warn
    ((if remove cfg then "Moving " else "Copying ") +:+ Path file +:+ " to " +:+
     destination (Path file) (fdir cfg) name).

(** * Properties *)

(** ** The path functions on the inputs used below *)

Example clean1 : filepath.Clean "a//b/./c/.." = "a/b". Proof. reflexivity. Qed.
Example clean2 : filepath.Clean "/../a" = "/a". Proof. reflexivity. Qed.
Example clean3 : filepath.Clean "" = ".". Proof. reflexivity. Qed.
Example clean4 : filepath.Clean "../../a/.." = "../..". Proof. reflexivity. Qed.
Example clean5 : filepath.Clean "./data/" = "data". Proof. reflexivity. Qed.
Example dir1 : filepath.Dir "a/b" = "a". Proof. reflexivity. Qed.
Example dir2 : filepath.Dir "data" = ".". Proof. reflexivity. Qed.
Example dir3 : filepath.Dir "/data" = "/". Proof. reflexivity. Qed.
Example dir4 : filepath.Dir "a/b/" = "a/b". Proof. reflexivity. Qed.
Example base1 : filepath.Base "a/b/x.txt" = "x.txt". Proof. reflexivity. Qed.
Example base2 : filepath.Base "///" = "/". Proof. reflexivity. Qed.
Example base3 : filepath.Base "a/b//" = "b". Proof. reflexivity. Qed.
Example base4 : filepath.Base "" = ".". Proof. reflexivity. Qed.
Example join1 : filepath.Join ["."; "data/sub/x"] = "data/sub/x". Proof. reflexivity. Qed.
Example join2 : filepath.Join ["a"; "a/b/x"] = "a/a/b/x". Proof. reflexivity. Qed.
Example join3 : filepath.Join [""; ""] = "". Proof. reflexivity. Qed.
Example join4 : filepath.Join ["./dupdump"; "data/b/x.txt"] = "dupdump/data/b/x.txt". Proof. reflexivity. Qed.
Example join5 : filepath.Join ["/"; "/data/x"] = "/data/x". Proof. reflexivity. Qed.

(** ** The index *)

Lemma replaces_spec old r :
  replaces old r = true <->
  Time r < Time old \/ (len (Path r) < len (Path old))%nat.
Proof.
  unfold replaces, After. rewrite orb_true_iff, Z.ltb_lt, Nat.ltb_lt. tauto.
Qed.

Lemma replaces_false_iff old r :
  replaces old r = false <->
  Time old <= Time r /\ (len (Path old) <= len (Path r))%nat.
Proof.
  destruct (replaces old r) eqn:Hr.
  - apply replaces_spec in Hr. split; [done|lia].
  - split; [|done]. intros _.
    destruct (decide (Time r < Time old \/ (len (Path r) < len (Path old))%nat))
      as [Hc|Hc]; [|lia].
    apply replaces_spec in Hc. congruence.
Qed.




Lemma observe_files_eq s r ix :
  files (observe s r ix) !! s = resolve (files ix !! s) r.
Proof.
  unfold observe, resolve. destruct (files ix !! s) as [old|] eqn:Hs; simpl.
  - destruct (replaces old r); simpl; by simplify_map_eq.
  - by simplify_map_eq.
Qed.

Lemma observe_files_ne s s' r ix :
  s <> s' -> files (observe s r ix) !! s' = files ix !! s'.
Proof.
  intros Hne. unfold observe. destruct (files ix !! s) as [old|]; simpl.
  - destruct (replaces old r); simpl; by simplify_map_eq.
  - by simplify_map_eq.
Qed.

Lemma observe_all_files s obs : forall ix,
  files (observe_all obs ix) !! s
  = fold_left resolve (records_of s obs) (files ix !! s).
Proof.
  unfold observe_all, records_of.
  induction obs as [|[s' r] obs IH]; intros ix; simpl; [done|].
  rewrite IH. rewrite filter_cons. simpl.
  destruct (decide (s' = s)) as [->|Hne]; simpl.
  - by rewrite observe_files_eq.
  - by rewrite observe_files_ne.
Qed.




Lemma elem_of_records_of s r obs : r ∈ records_of s obs <-> (s, r) ∈ obs.
Proof.
  unfold records_of. rewrite list_elem_of_fmap. split.
  - intros ([s' r'] & -> & H). apply list_elem_of_filter in H as [H1 H2].
    simpl in *. by subst.
  - intros H. exists (s, r). split; [done|]. by apply list_elem_of_filter.
Qed.

Lemma observe_first s r ix :
  files ix !! s = None ->
  observe s r ix = {| files := <[s := r]> (files ix); dupFiles := dupFiles ix |}.
Proof. intros H. unfold observe. by rewrite H. Qed.

Lemma observe_replace s old r ix :
  files ix !! s = Some old -> replaces old r = true ->
  observe s r ix = {| files := <[s := r]> (files ix);
                      dupFiles := {[ r ]} ∪ dupFiles ix ∖ {[ old ]} |}.
Proof. intros H Hr. unfold observe. by rewrite H, Hr. Qed.

Lemma observe_keep s old r ix :
  files ix !! s = Some old -> replaces old r = false ->
  observe s r ix = {| files := files ix; dupFiles := {[ r ]} ∪ dupFiles ix |}.
Proof. intros H Hr. unfold observe. by rewrite H, Hr. Qed.

(** C1, on the code. The newer copy is walked first and the older one
    second: the older copy becomes the canonical record of the
    fingerprint, and it is the older copy, not the displaced newer one,
    that ends up in [dupFiles]. The canonical record is in the duplicate
    collection and the other record observed with the fingerprint is not. *)
Theorem observe_marks_the_winner_duplicate :
  let ix := observe "h" older_copy (observe "h" newer_copy empty_index) in
  files ix !! "h" = Some older_copy /\
  older_copy ∈ dupFiles ix /\
  newer_copy ∉ dupFiles ix.
Proof.
  simpl. rewrite (observe_first "h" newer_copy empty_index) by done.
  erewrite observe_replace; [|apply lookup_insert_eq|done]. simpl.
  split; [apply lookup_insert_eq|]. split.
  - apply elem_of_union_l. by apply elem_of_singleton.
  - intros [H|H]%elem_of_union.
    + apply elem_of_singleton in H. discriminate H.
    + apply elem_of_difference in H as [H _]. by apply not_elem_of_empty in H.
Qed.

(** C4, as the specification words it, fails. The canonical record has
    the path [ab], two characters; the record walked next has the same
    time and the one-character path e-acute. The older path has more
    characters, so the worded rule makes the new record canonical; the
    code compares byte lengths, two and two, and keeps the old record. *)
Lemma character_count_counterexample :
  let ix := observe "h" two_letters empty_index in
  ~ (files (observe "h" one_letter ix) !! "h" = Some one_letter <->
     spec_replaces two_letters one_letter = true).
Proof.
  simpl. intros [_ H].
  assert (files (observe "h" one_letter (observe "h" two_letters empty_index))
            !! "h" = Some two_letters) as Hk.
  { rewrite !observe_files_eq. reflexivity. }
  rewrite Hk in H. discriminate H. reflexivity.
Qed.

(** C4, amended: the length of a path is its length in bytes. With [old]
    canonical for the fingerprint, observing [new] leaves as canonical the
    record chosen by [replaces], a function of the two records alone;
    [new] is chosen exactly when [old] is strictly later or has the
    strictly longer path in bytes; otherwise, equal times and equal
    lengths included, [old] stays and [new] enters the duplicates. *)
Theorem resolver_precedence (ix : Index) (s : string) (old new : PathTime) :
  files ix !! s = Some old ->
  files (observe s new ix) !! s = Some (if replaces old new then new else old)
  /\ (replaces old new = true <->
      Time new < Time old \/ (len (Path new) < len (Path old))%nat)
  /\ (old <> new ->
      (files (observe s new ix) !! s = Some new <->
       Time new < Time old \/ (len (Path new) < len (Path old))%nat))
  /\ (replaces old new = false ->
      files (observe s new ix) !! s = Some old /\
      new ∈ dupFiles (observe s new ix))
  /\ (Time old = Time new -> len (Path old) = len (Path new) ->
      files (observe s new ix) !! s = Some old).
Proof.
  intros Hold.
  assert (files (observe s new ix) !! s
          = Some (if replaces old new then new else old)) as Hres.
  { rewrite observe_files_eq, Hold. done. }
  split; [exact Hres|]. split; [apply replaces_spec|].
  split; [|split].
  - intros Hne. rewrite Hres, <- replaces_spec.
    destruct (replaces old new); split; intros H; congruence.
  - intros Hk. rewrite Hres, Hk. split; [done|].
    rewrite (observe_keep s old new ix Hold Hk). simpl.
    apply elem_of_union_l. by apply elem_of_singleton.
  - intros Ht Hl. rewrite Hres.
    assert (replaces old new = false) as ->; [|done].
    destruct (replaces old new) eqn:Hr; [|done].
    apply replaces_spec in Hr. lia.
Qed.

Lemma resolver_precedence_witness :
  files (observe "h" older_copy (observe "h" newer_copy empty_index)) !! "h"
  = Some older_copy.
Proof.
  destruct (resolver_precedence (observe "h" newer_copy empty_index) "h"
              newer_copy older_copy) as [H _].
  - rewrite observe_files_eq. reflexivity.
  - rewrite H. reflexivity.
Defined.




(** C3, on the code. Three canonical files share the base name [x]. The
    second gets [x1] and the counter that is incremented is the one of
    [x1], so the counter of [x] is still 1 for the third, which gets [x1]
    again: two of the three output names coincide. *)
Theorem flatten_names_collide :
  flatten_names ∅ three_x = [ "x"; "x1"; "x1" ] /\
  ~ NoDup (flatten_names ∅ three_x).
Proof.
  assert (flatten_names ∅ three_x = [ "x"; "x1"; "x1" ]) as Hn
    by (vm_compute; reflexivity).
  split; [exact Hn|]. rewrite Hn. intros Hnd.
  apply NoDup_cons in Hnd as [_ Hnd]. apply NoDup_cons in Hnd as [Hnot _].
  apply Hnot. by left.
Qed.

(** ** The monad *)

Section Monad_facts.

Context {E : Env}.

Lemma emits_ret {A} P (a : A) : emits (E:=E) P (ret E a).
Proof. intros w. exists []. simpl. by rewrite app_nil_r. Qed.

Lemma emits_bind {A B} P (m : M E A) (k : A -> M E B) :
  emits P m -> (forall a, emits P (k a)) -> emits P (bind E m k).
Proof.
  intros Hm Hk w. unfold bind. destruct (Hm w) as (t1 & Ht1 & HP1).
  destruct (m w) as [[a|st] w1]; simpl in *.
  - destruct (Hk a w1) as (t2 & Ht2 & HP2). exists (t1 ++ t2).
    rewrite Ht2, Ht1, app_assoc. split; [done|]. by apply Forall_app.
  - by exists t1.
Qed.

Lemma emits_emit P e : P e -> emits (E:=E) P (emit E e).
Proof. intros He w. exists [ e ]. simpl. split; [done|]. by repeat constructor. Qed.

Lemma emits_logFatal {A} P msg :
  P (EvLog Fatal msg) -> emits (E:=E) P (logFatal E (A:=A) msg).
Proof. intros He w. exists [ EvLog Fatal msg ]. simpl. split; [done|]. by repeat constructor. Qed.

Lemma emits_stat P path : P (EvStat path) -> emits (E:=E) P (stat E path).
Proof. intros He w. exists [ EvStat path ]. simpl. split; [done|]. by repeat constructor. Qed.

Lemma emits_open P path : P (EvOpen path) -> emits (E:=E) P (open E path).
Proof. intros He w. exists [ EvOpen path ]. simpl. split; [done|]. by repeat constructor. Qed.

Lemma emits_readAll P path : P (EvRead path) -> emits (E:=E) P (readAll E path).
Proof. intros He w. exists [ EvRead path ]. simpl. split; [done|]. by repeat constructor. Qed.

Lemma emits_exec P op :
  (forall res, P (EvOp op res)) -> emits (E:=E) P (exec E op).
Proof.
  intros He w. unfold exec. destruct (os_exec E op (disk w)) as [res d].
  exists [ EvOp op res ]. simpl. split; [done|]. by repeat constructor.
Qed.

Lemma emits_update_index P f : emits (E:=E) P (update_index E f).
Proof. intros w. exists []. simpl. by rewrite app_nil_r. Qed.

Lemma emits_get_index P : emits (E:=E) P (get_index E).
Proof. intros w. exists []. simpl. by rewrite app_nil_r. Qed.

Lemma keeps_disk_ret {A} (a : A) : keeps_disk (E:=E) (ret E a).
Proof. by intros w. Qed.

Lemma keeps_disk_bind {A B} (m : M E A) (k : A -> M E B) :
  keeps_disk m -> (forall a, keeps_disk (k a)) -> keeps_disk (bind E m k).
Proof.
  intros Hm Hk w. unfold bind. specialize (Hm w).
  destruct (m w) as [[a|st] w1]; simpl in *; [|done].
  by rewrite Hk.
Qed.

Lemma keeps_disk_emit e : keeps_disk (E:=E) (emit E e).
Proof. by intros w. Qed.

Lemma keeps_disk_logFatal {A} msg : keeps_disk (E:=E) (logFatal E (A:=A) msg).
Proof. by intros w. Qed.

Lemma keeps_disk_stat path : keeps_disk (E:=E) (stat E path).
Proof. by intros w. Qed.

Lemma keeps_disk_open path : keeps_disk (E:=E) (open E path).
Proof. by intros w. Qed.

Lemma keeps_disk_readAll path : keeps_disk (E:=E) (readAll E path).
Proof. by intros w. Qed.

Lemma keeps_disk_update_index f : keeps_disk (E:=E) (update_index E f).
Proof. by intros w. Qed.

Lemma keeps_disk_get_index : keeps_disk (E:=E) (get_index E).
Proof. by intros w. Qed.

End Monad_facts.

Create HintDb run discriminated.
#[global] Hint Resolve emits_ret emits_update_index emits_get_index
  keeps_disk_ret keeps_disk_emit keeps_disk_logFatal keeps_disk_stat
  keeps_disk_open keeps_disk_readAll keeps_disk_update_index
  keeps_disk_get_index : run.

(** Walks through a monadic body: binds are split, matches and tests are
    taken by cases, leaves are closed from the [run] hints. *)
Ltac run_step :=
  first
    [ apply emits_bind | apply keeps_disk_bind
    | apply emits_emit | apply emits_logFatal | apply emits_stat
    | apply emits_open | apply emits_readAll | apply emits_exec
    | progress intros
    | solve [ eauto with run ]
    | match goal with
      | |- context [ match ?x with _ => _ end ] => destruct x eqn:?
      end ].
Ltac run_through := repeat run_step.

(** ** The walk *)

Lemma observe_files_from s r ix s' r' :
  files (observe s r ix) !! s' = Some r' -> r' = r \/ files ix !! s' = Some r'.
Proof.
  destruct (decide (s = s')) as [<-|Hne].
  - rewrite observe_files_eq. unfold resolve.
    destruct (files ix !! s) as [old|]; [|intros [= <-]; by left].
    destruct (replaces old r); intros [= <-]; [by left|by right].
  - rewrite observe_files_ne by done. by right.
Qed.

Lemma observe_dups_from s r ix r' :
  r' ∈ dupFiles (observe s r ix) -> r' = r \/ r' ∈ dupFiles ix.
Proof.
  unfold observe. destruct (files ix !! s) as [old|]; simpl; [|by right].
  destruct (replaces old r); simpl; intros [H|H]%elem_of_union.
  - left. by apply elem_of_singleton in H.
  - right. by apply elem_of_difference in H as [H _].
  - left. by apply elem_of_singleton in H.
  - by right.
Qed.

Section Walk_facts.

Context {E : Env}.

Lemma walkFn_skip v (w : World E) :
  v_err v = None -> v_isdir v = false -> v_size v = 0 ->
  walkFn E v w = (Ret None, add_event (skip_notice v) w).
Proof. intros He Hd Hs. unfold walkFn. rewrite He, Hd, Hs. reflexivity. Qed.

Lemma walkFn_dir v (w : World E) :
  v_err v = None -> v_isdir v = true -> walkFn E v w = (Ret None, w).
Proof. intros He Hd. unfold walkFn. rewrite He, Hd. reflexivity. Qed.

Lemma walkFn_hashes v c (w : World E) :
  hashes_to (disk w) v c ->
  exists w', walkFn E v w = (Ret None, w') /\ disk w' = disk w /\
    index w' = observe (sha256_hex E c) (record_of v) (index w).
Proof.
  intros (He & Hd & Hs & Ho & Hr). unfold walkFn. rewrite He, Hd.
  apply Z.eqb_neq in Hs. rewrite Hs.
  unfold bind, open, readAll. simpl. rewrite Ho. simpl. rewrite Hr. simpl.
  eexists. split; [reflexivity|]. by split.
Qed.

Lemma walk_cons_nil v vs (w w' : World E) :
  walkFn E v w = (Ret None, w') -> walk E (v :: vs) w = walk E vs w'.
Proof. intros H. simpl. unfold bind. by rewrite H. Qed.

Lemma walk_app l1 l2 : forall w : World E,
  walk E (l1 ++ l2) w =
  match walk E l1 w with
  | (Ret None, w') => walk E l2 w'
  | other => other
  end.
Proof.
  induction l1 as [|v l1 IH]; intros w; simpl; [done|].
  unfold bind. destruct (walkFn E v w) as [[[e|]|st] w1]; simpl; [done| |done].
  apply IH.
Qed.

Lemma walkFn_passes s v (w : World E) :
  passes_by (disk w) s v ->
  exists w', walkFn E v w = (Ret None, w') /\ disk w' = disk w /\
    files (index w') !! s = files (index w) !! s.
Proof.
  intros (He & [Hd | [Hz | (c & Hc & Hne)]]).
  - exists w. by rewrite walkFn_dir.
  - destruct (v_isdir v) eqn:Hd.
    + exists w. by rewrite walkFn_dir.
    + eexists. by rewrite walkFn_skip.
  - destruct (walkFn_hashes v c w Hc) as (w' & Hw & Hdisk & Hix).
    exists w'. split; [done|]. split; [done|].
    rewrite Hix. by apply observe_files_ne.
Qed.

Lemma walk_passes s l : forall w : World E,
  Forall (passes_by (disk w) s) l ->
  exists w', walk E l w = (Ret None, w') /\ disk w' = disk w /\
    files (index w') !! s = files (index w) !! s.
Proof.
  induction l as [|v l IH]; intros w Hall.
  - by exists w.
  - apply Forall_cons in Hall as [Hv Hl].
    destruct (walkFn_passes s v w Hv) as (w1 & Hw1 & Hd1 & Hf1).
    rewrite (walk_cons_nil _ _ _ _ Hw1).
    rewrite <- Hd1 in Hl. destruct (IH w1 Hl) as (w2 & Hw2 & Hd2 & Hf2).
    exists w2. split; [done|]. split; congruence.
Qed.

(** A walk in which exactly the visits [v1] and then [v2] have the
    digest of [c]. *)
Lemma walk_two v1 v2 c pre mid post (d : FS E) :
  hashes_to d v1 c -> hashes_to d v2 c ->
  Forall (passes_by d (sha256_hex E c)) pre ->
  Forall (passes_by d (sha256_hex E c)) mid ->
  Forall (passes_by d (sha256_hex E c)) post ->
  canonical_after d (pre ++ v1 :: mid ++ v2 :: post) (sha256_hex E c)
  = resolve (Some (record_of v1)) (record_of v2).
Proof.
  intros H1 H2 Hpre Hmid Hpost. unfold canonical_after.
  destruct (walk_passes _ pre (init_world E d) Hpre) as (w1 & Hw1 & Hd1 & Hf1).
  rewrite walk_app, Hw1. simpl in Hd1.
  rewrite <- Hd1 in H1. destruct (walkFn_hashes v1 c w1 H1) as (w2 & Hw2 & Hd2 & Hi2).
  rewrite (walk_cons_nil _ _ _ _ Hw2).
  assert (disk w2 = d) as Hdw2 by congruence.
  rewrite <- Hdw2 in Hmid.
  destruct (walk_passes _ mid w2 Hmid) as (w3 & Hw3 & Hd3 & Hf3).
  rewrite walk_app, Hw3.
  assert (disk w3 = d) as Hdw3 by congruence.
  rewrite <- Hdw3 in H2. destruct (walkFn_hashes v2 c w3 H2) as (w4 & Hw4 & Hd4 & Hi4).
  rewrite (walk_cons_nil _ _ _ _ Hw4).
  assert (disk w4 = d) as Hdw4 by congruence.
  rewrite <- Hdw4 in Hpost.
  destruct (walk_passes _ post w4 Hpost) as (w5 & Hw5 & Hd5 & Hf5).
  rewrite Hw5. simpl. rewrite Hf5, Hi4, observe_files_eq, Hf3, Hi2,
    observe_files_eq, Hf1. reflexivity.
Qed.

Lemma from_nonempty_file_visit vs v :
  v ∈ vs -> v_err v = None -> v_isdir v = false -> v_size v <> 0 ->
  from_nonempty_file vs (record_of v).
Proof. intros. by exists v. Qed.

Lemma only_nonempty_add vs e (w : World E) :
  (forall p, e <> EvOpen p) -> (forall p, e <> EvRead p) ->
  only_nonempty vs w -> only_nonempty vs (add_event e w).
Proof.
  intros Ho Hr (Hf & Hd & Ht). split; [done|]. split; [done|].
  intros p Hp. apply Ht. simpl in Hp.
  rewrite !elem_of_app, !list_elem_of_singleton in Hp.
  destruct Hp as [[Hp|Hp]|[Hp|Hp]]; [by left| |by right|]; subst e.
  - by destruct (Ho p). 
  - by destruct (Hr p).
Qed.

Lemma walkFn_only_nonempty vs v (w : World E) :
  v ∈ vs -> only_nonempty vs w -> only_nonempty vs (snd (walkFn E v w)).
Proof.
  intros Hv Hinv. unfold walkFn.
  destruct (v_err v) as [e|] eqn:He.
  { simpl. by apply (only_nonempty_add vs _ w). }
  destruct (v_isdir v) eqn:Hd; [done|].
  destruct (v_size v =? 0) eqn:Hs.
  { simpl. by apply (only_nonempty_add vs _ w). }
  apply Z.eqb_neq in Hs.
  assert (forall w0 : World E, only_nonempty vs w0 ->
            only_nonempty vs (add_event (EvOpen (v_path v)) w0)) as Hopen.
  { intros w0 (Hf & Hdu & Ht). split; [done|]. split; [done|].
    intros p Hp. simpl in Hp.
    rewrite !elem_of_app, !list_elem_of_singleton in Hp.
    destruct Hp as [[Hp|Hp]|[Hp|Hp]]; [apply Ht; by left| |apply Ht; by right|done].
    injection Hp as ->. by exists v. }
  assert (forall w0 : World E, only_nonempty vs w0 ->
            only_nonempty vs (add_event (EvRead (v_path v)) w0)) as Hread.
  { intros w0 (Hf & Hdu & Ht). split; [done|]. split; [done|].
    intros p Hp. simpl in Hp.
    rewrite !elem_of_app, !list_elem_of_singleton in Hp.
    destruct Hp as [[Hp|Hp]|[Hp|Hp]]; [apply Ht; by left|done|apply Ht; by right|].
    injection Hp as ->. by exists v. }
  unfold bind, open, readAll. simpl.
  destruct (os_Open E (v_path v) (disk w)) as [e|] eqn:Ho; simpl.
  { apply (only_nonempty_add vs _ (add_event _ w)); [done..|]. by apply Hopen. }
  destruct (os_ReadAll E (v_path v) (disk w)) as [e|c] eqn:Hr; simpl.
  { apply (only_nonempty_add vs _ (add_event _ (add_event _ w))); [done..|].
    apply Hread. by apply Hopen. }
  match goal with
  | |- only_nonempty vs ?w' =>
      assert (exists w0, only_nonempty vs w0 /\ w' =
        add_event (EvClose (v_path v))
          {| index := observe (sha256_hex E c) (record_of v) (index w0);
             disk := disk w0; trace := trace w0 |}) as (w0 & Hw0 & ->)
  end.
  { eexists (add_event _ (add_event _ (add_event _ w))). split; [|reflexivity].
    apply only_nonempty_add; [done..|]. apply Hread. by apply Hopen. }
  apply only_nonempty_add; [done..|].
  destruct Hw0 as (Hf & Hdu & Ht). split; [|split]; simpl; [| |done].
  - intros s r [->|H]%observe_files_from; [|by eapply Hf].
    by apply from_nonempty_file_visit.
  - intros r [->|H]%observe_dups_from; [|by apply Hdu].
    by apply from_nonempty_file_visit.
Qed.

Lemma walk_only_nonempty vs l : forall w : World E,
  l ⊆ vs -> only_nonempty vs w -> only_nonempty vs (snd (walk E l w)).
Proof.
  induction l as [|v l IH]; intros w Hsub Hinv; [done|].
  simpl. unfold bind.
  assert (only_nonempty vs (snd (walkFn E v w))) as Hstep.
  { apply walkFn_only_nonempty; [|done]. apply Hsub. by left. }
  destruct (walkFn E v w) as [[[e|]|st] w1]; simpl in *; [done| |done].
  apply IH; [|done]. intros x Hx. apply Hsub. by right.
Qed.

End Walk_facts.

(** C9: a file of size zero is skipped with an informational notice, it is
    neither opened nor read, the two maps are left as they are and the
    walk goes on with the next visit; and after the walk of any tree on a
    fresh process, every record in [files] and in [dupFiles], and every
    file that was opened or read, comes from a visit to a regular file
    whose size is not zero. *)
Theorem zero_length_exclusion (E : Env) (v : Visit) (rest : list Visit)
    (w : World E) (d : FS E) (vs : list Visit) :
  (v_err v = None -> v_isdir v = false -> v_size v = 0 ->
     walkFn E v w = (Ret None, add_event (skip_notice v) w) /\
     index (add_event (skip_notice v) w) = index w /\
     walk E (v :: rest) w = walk E rest (add_event (skip_notice v) w))
  /\ only_nonempty vs (snd (walk E vs (init_world E d))).
Proof.
  split.
  - intros He Hd Hs. pose proof (walkFn_skip v w He Hd Hs) as Hskip.
    split; [done|]. split; [done|]. by apply walk_cons_nil.
  - apply walk_only_nonempty; [done|].
    split; [|split]; simpl.
    + intros s r H. by rewrite lookup_empty in H.
    + intros r H. by apply not_elem_of_empty in H.
    + intros p [H|H]; by apply elem_of_nil in H.
Qed.

Lemma zero_length_exclusion_witness :
  walkFn pair_env empty_visit (init_world pair_env [])
  = (Ret None, add_event (skip_notice empty_visit) (init_world pair_env [])).
Proof.
  destruct (zero_length_exclusion pair_env empty_visit [] (init_world pair_env [])
              [] []) as [H _].
  destruct H as [H _]; [reflexivity | reflexivity | reflexivity | exact H].
Defined.

(** C5, as stated, fails: the older of two identical files lies under the
    longer path and is visited first; after the walk the newer file is the
    canonical record. *)
Lemma older_file_counterexample :
  let older := {| v_path := "docs/report.txt"; v_err := None; v_isdir := false;
                  v_size := 1; v_mtime := 1 |} in
  let newer := {| v_path := "r.txt"; v_err := None; v_isdir := false;
                  v_size := 1; v_mtime := 2 |} in
  let E := simEnv [ {| sf_path := "docs/report.txt"; sf_mtime := 1; sf_content := "A" |};
                    {| sf_path := "r.txt"; sf_mtime := 2; sf_content := "A" |} ]
                  (fun _ => true) no_failure in
  walk_visits E "." [] = [ older; newer ] /\
  v_mtime older < v_mtime newer /\
  canonical_after (E:=E) [] [ older; newer ] "A" = Some (record_of newer).
Proof. simpl. split; [reflexivity|]. split; [lia|]. vm_compute. reflexivity. Qed.

(** C5, amended: of two files with identical content and distinct
    modification times, the older one is canonical after the walk, in
    either visiting order, when its path is not longer (in bytes) than
    that of the newer one; with identical times and different path
    lengths the file with the shorter path is canonical, in either
    order; and when the older file has the strictly longer path, the file
    visited last is canonical. The other visits of the walk are
    directories, empty files and files of other content. *)
Theorem tie_break_end_to_end (E : Env) (d : FS E) (va vb : Visit) (c : string)
    (pre mid post pre' mid' post' : list Visit) :
  hashes_to d va c -> hashes_to d vb c ->
  Forall (passes_by d (sha256_hex E c))
         (pre ++ mid ++ post ++ pre' ++ mid' ++ post') ->
  let s := sha256_hex E c in
  let a := record_of va in
  let b := record_of vb in
  let a_first := canonical_after d (pre ++ va :: mid ++ vb :: post) s in
  let b_first := canonical_after d (pre' ++ vb :: mid' ++ va :: post') s in
  (Time a < Time b -> (len (Path a) <= len (Path b))%nat ->
     a_first = Some a /\ b_first = Some a) /\
  (Time a = Time b -> (len (Path a) < len (Path b))%nat ->
     a_first = Some a /\ b_first = Some a) /\
  (Time a < Time b -> (len (Path b) < len (Path a))%nat ->
     a_first = Some b /\ b_first = Some a).
Proof.
  intros Ha Hb Hall. rewrite !Forall_app in Hall.
  destruct Hall as (Hpre & Hmid & Hpost & Hpre' & Hmid' & Hpost').
  intros s a b a_first b_first. subst a_first b_first s.
  rewrite (walk_two va vb c pre mid post d), (walk_two vb va c pre' mid' post' d)
    by done.
  subst a b. unfold resolve.
  split; [|split]; intros Ht Hl.
  - rewrite (proj2 (replaces_false_iff _ _)) by (simpl in *; lia).
    rewrite (proj2 (replaces_spec _ _)) by (simpl in *; lia). done.
  - rewrite (proj2 (replaces_false_iff _ _)) by (simpl in *; lia).
    rewrite (proj2 (replaces_spec _ _)) by (simpl in *; lia). done.
  - rewrite (proj2 (replaces_spec (record_of va) _)) by (simpl in *; lia).
    rewrite (proj2 (replaces_spec (record_of vb) _)) by (simpl in *; lia). done.
Qed.

Lemma tie_break_end_to_end_witness :
  canonical_after (E:=pair_env) [] [ visit_x; visit_y ] "A" = Some (record_of visit_x)
  /\ canonical_after (E:=pair_env) [] [ visit_y; visit_x ] "A" = Some (record_of visit_x).
Proof.
  assert (hashes_to (E:=pair_env) [] visit_x "A") as Hx.
  { unfold hashes_to. simpl. repeat split; try reflexivity. lia. }
  assert (hashes_to (E:=pair_env) [] visit_y "A") as Hy.
  { unfold hashes_to. simpl. repeat split; try reflexivity. lia. }
  destruct (tie_break_end_to_end pair_env [] visit_x visit_y "A" [] [] [] [] [] []
              Hx Hy (List.Forall_nil _)) as [H _].
  apply H; simpl; lia.
Defined.

(** ** The action executor *)


Section Executor_facts.

Context {E : Env} (cfg : Flags) (P : Event -> Prop).
Hypothesis P_readonly : forall e, readonly e = true -> P e.

Lemma emits_walkFn v : emits P (walkFn E v).
Proof. unfold walkFn, logf, close. run_through; by apply P_readonly. Qed.

Lemma emits_walk vs : emits P (walk E vs).
Proof.
  induction vs as [|v vs IH]; simpl; [apply emits_ret|].
  apply emits_bind; [apply emits_walkFn|].
  intros [e|]; [apply emits_ret|exact IH].
Qed.

Lemma emits_copyToDirectory filename destinationDir newFilename :
  (dryrun cfg = false -> forall op res,
     (forall p, op <> Remove p) -> (forall a b, op <> Rename a b) ->
     P (EvOp op res)) ->
  emits P (copyToDirectory E cfg filename destinationDir newFilename).
Proof.
  intros Hop. unfold copyToDirectory, logf, close.
  apply emits_bind; [apply emits_emit; by apply P_readonly|]. intros _.
  destruct (dryrun cfg) eqn:Hdry; [apply emits_ret|].
  run_through; try (by apply P_readonly); by apply Hop.
Qed.

Lemma emits_moveToDirectory filename destinationDir newFilename :
  (dryrun cfg = false -> forall res,
     P (EvOp (MkdirAll (filepath.Dir
                (destination filename destinationDir newFilename))) res) /\
     P (EvOp (Rename filename
                (destination filename destinationDir newFilename)) res)) ->
  emits P (moveToDirectory E cfg filename destinationDir newFilename).
Proof.
  intros Hop. unfold moveToDirectory, logf.
  apply emits_bind; [apply emits_emit; by apply P_readonly|]. intros _.
  destruct (dryrun cfg) eqn:Hdry; [apply emits_ret|].
  run_through; try (by apply P_readonly); by apply Hop.
Qed.

Lemma emits_remove_dups root ds :
  (dryrun cfg = false -> forall p res, P (EvOp (Remove p) res)) ->
  emits P (remove_dups E cfg root ds).
Proof.
  intros Hop. induction ds as [|file ds IH]; simpl; [apply emits_ret|].
  unfold logf.
  apply emits_bind; [apply emits_emit; by apply P_readonly|]. intros _.
  destruct (dryrun cfg) eqn:Hdry; [exact IH|].
  apply emits_bind; [apply emits_exec; by apply Hop|].
  intros [e|]; [apply emits_ret|exact IH].
Qed.

Hypothesis P_allowed :
  dryrun cfg = false -> forall op res, allowed_op cfg op -> P (EvOp op res).

Lemma emits_copy_dups ds : emits P (copy_dups E cfg ds).
Proof.
  induction ds as [|file ds IH]; simpl; [apply emits_ret|].
  apply emits_bind; [|by intros _].
  apply emits_copyToDirectory. intros Hdry op res Hrm _.
  apply P_allowed; [done|]. destruct op; try done. by destruct (Hrm path).
Qed.

Lemma emits_move_dups ds : emits P (move_dups E cfg ds).
Proof.
  induction ds as [|file ds IH]; simpl; [apply emits_ret|].
  apply emits_bind; [|by intros _].
  apply emits_moveToDirectory. intros Hdry res. split; by apply P_allowed.
Qed.

Lemma emits_handle_dups root : emits P (handle_dups E cfg root).
Proof.
  unfold handle_dups, logf.
  apply emits_bind; [apply emits_get_index|]. intros ix.
  destruct (dedup cfg) eqn:Hdedup; [destruct (rdup cfg)|destruct (rdup cfg)].
  - apply emits_bind; [apply emits_emit; by apply P_readonly|]. intros _.
    apply emits_bind; [apply emits_move_dups|]. intros _. apply emits_ret.
  - apply emits_bind; [apply emits_emit; by apply P_readonly|]. intros _.
    apply emits_bind; [apply emits_copy_dups|]. intros _. apply emits_ret.
  - apply emits_bind; [apply emits_emit; by apply P_readonly|]. intros _.
    apply emits_remove_dups. intros Hdry p res. by apply P_allowed.
  - apply emits_ret.
Qed.

Lemma emits_flatten_files fs : forall filenames,
  emits P (flatten_files E cfg filenames fs).
Proof.
  induction fs as [|file fs IH]; intros filenames; simpl; [apply emits_ret|].
  destruct (flattenName filenames (Path file)) as [name filenames'].
  apply emits_bind; [|intros _; apply IH].
  destruct (remove cfg).
  - apply emits_moveToDirectory. intros Hdry res. split; by apply P_allowed.
  - apply emits_copyToDirectory. intros Hdry op res Hrm _.
    apply P_allowed; [done|]. destruct op; try done. by destruct (Hrm path).
Qed.

Lemma emits_handle_flatten : emits P (handle_flatten E cfg).
Proof.
  unfold handle_flatten, logf. destruct (flatten cfg); [|apply emits_ret].
  apply emits_bind; [apply emits_emit; by apply P_readonly|]. intros _.
  apply emits_bind; [apply emits_get_index|]. intros ix.
  apply emits_flatten_files.
Qed.

Lemma emits_RunE args : emits P (RunE E cfg args).
Proof.
  unfold RunE. destruct args as [|root [|]]; try apply emits_ret.
  apply emits_bind; [apply emits_stat; by apply P_readonly|]. intros st.
  destruct (is_ErrNotExist st); [apply emits_ret|].
  apply emits_bind.
  { destruct (flatten cfg); [|apply emits_ret].
    apply emits_bind; [apply emits_stat; by apply P_readonly|]. intros st'.
    destruct (negb (is_ErrNotExist st')); apply emits_ret. }
  intros [e|]; [apply emits_ret|].
  apply emits_bind; [intros w; apply emits_walk|].
  intros [e|]; [apply emits_ret|].
  apply emits_bind; [apply emits_handle_dups|].
  intros [e|]; [apply emits_ret|].
  apply emits_bind; [apply emits_handle_flatten|]. intros _. apply emits_ret.
Qed.

End Executor_facts.

Section Dry_run.

Context {E : Env} (cfg : Flags).
Hypothesis dry : dryrun cfg = true.

Lemma keeps_disk_walkFn v : keeps_disk (walkFn E v).
Proof. unfold walkFn, logf, close. run_through. Qed.

Lemma keeps_disk_walk vs : keeps_disk (walk E vs).
Proof.
  induction vs as [|v vs IH]; simpl; [apply keeps_disk_ret|].
  apply keeps_disk_bind; [apply keeps_disk_walkFn|].
  intros [e|]; [apply keeps_disk_ret|exact IH].
Qed.

Lemma keeps_disk_copyToDirectory filename destinationDir newFilename :
  keeps_disk (copyToDirectory E cfg filename destinationDir newFilename).
Proof. unfold copyToDirectory, logf. rewrite dry. run_through. Qed.

Lemma keeps_disk_moveToDirectory filename destinationDir newFilename :
  keeps_disk (moveToDirectory E cfg filename destinationDir newFilename).
Proof. unfold moveToDirectory, logf. rewrite dry. run_through. Qed.

Lemma keeps_disk_copy_dups ds : keeps_disk (copy_dups E cfg ds).
Proof.
  induction ds as [|file ds IH]; simpl; [apply keeps_disk_ret|].
  apply keeps_disk_bind; [apply keeps_disk_copyToDirectory|by intros _].
Qed.

Lemma keeps_disk_move_dups ds : keeps_disk (move_dups E cfg ds).
Proof.
  induction ds as [|file ds IH]; simpl; [apply keeps_disk_ret|].
  apply keeps_disk_bind; [apply keeps_disk_moveToDirectory|by intros _].
Qed.

Lemma keeps_disk_remove_dups root ds : keeps_disk (remove_dups E cfg root ds).
Proof.
  induction ds as [|file ds IH]; simpl; [apply keeps_disk_ret|].
  unfold logf. rewrite dry.
  apply keeps_disk_bind; [apply keeps_disk_emit|by intros _].
Qed.

Lemma keeps_disk_handle_dups root : keeps_disk (handle_dups E cfg root).
Proof.
  unfold handle_dups, logf.
  apply keeps_disk_bind; [apply keeps_disk_get_index|]. intros ix.
  destruct (dedup cfg), (rdup cfg); try apply keeps_disk_ret.
  - apply keeps_disk_bind; [apply keeps_disk_emit|]. intros _.
    apply keeps_disk_bind; [apply keeps_disk_move_dups|]. intros _.
    apply keeps_disk_ret.
  - apply keeps_disk_bind; [apply keeps_disk_emit|]. intros _.
    apply keeps_disk_bind; [apply keeps_disk_copy_dups|]. intros _.
    apply keeps_disk_ret.
  - apply keeps_disk_bind; [apply keeps_disk_emit|]. intros _.
    apply keeps_disk_remove_dups.
Qed.

Lemma keeps_disk_flatten_files fs : forall filenames,
  keeps_disk (flatten_files E cfg filenames fs).
Proof.
  induction fs as [|file fs IH]; intros filenames; simpl; [apply keeps_disk_ret|].
  destruct (flattenName filenames (Path file)) as [name filenames'].
  apply keeps_disk_bind; [|intros _; apply IH].
  destruct (remove cfg);
    [apply keeps_disk_moveToDirectory|apply keeps_disk_copyToDirectory].
Qed.

Lemma keeps_disk_handle_flatten : keeps_disk (handle_flatten E cfg).
Proof.
  unfold handle_flatten, logf. destruct (flatten cfg); [|apply keeps_disk_ret].
  apply keeps_disk_bind; [apply keeps_disk_emit|]. intros _.
  apply keeps_disk_bind; [apply keeps_disk_get_index|]. intros ix.
  apply keeps_disk_flatten_files.
Qed.

Lemma keeps_disk_RunE args : keeps_disk (RunE E cfg args).
Proof.
  unfold RunE. destruct args as [|root [|]]; try apply keeps_disk_ret.
  apply keeps_disk_bind; [apply keeps_disk_stat|]. intros st.
  destruct (is_ErrNotExist st); [apply keeps_disk_ret|].
  apply keeps_disk_bind.
  { destruct (flatten cfg); [|apply keeps_disk_ret].
    apply keeps_disk_bind; [apply keeps_disk_stat|]. intros st'.
    destruct (negb (is_ErrNotExist st')); apply keeps_disk_ret. }
  intros [e|]; [apply keeps_disk_ret|].
  apply keeps_disk_bind; [intros w; apply keeps_disk_walk|].
  intros [e|]; [apply keeps_disk_ret|].
  apply keeps_disk_bind; [apply keeps_disk_handle_dups|].
  intros [e|]; [apply keeps_disk_ret|].
  apply keeps_disk_bind; [apply keeps_disk_handle_flatten|]. intros _.
  apply keeps_disk_ret.
Qed.

End Dry_run.

Lemma Execute_world {E : Env} cfg args (w : World E) :
  snd (Execute E cfg args w) = snd (RunE E cfg args w).
Proof.
  unfold Execute. by destruct (RunE E cfg args w) as [[[e|]|st] w'].
Qed.

(** C8: with dry-run enabled, whatever the other flags, the arguments
    and the tree, a run leaves the disk as it found it, and everything
    it does is logging and read-only calls: no directory is created,
    nothing is copied, renamed or deleted. *)
Theorem dryrun_is_noop (E : Env) (cfg : Flags) (args : list string)
    (w : World E) :
  dryrun cfg = true ->
  disk (snd (RunE E cfg args w)) = disk w /\
  disk (snd (Execute E cfg args w)) = disk w /\
  exists t, trace (snd (RunE E cfg args w)) = trace w ++ t /\
            Forall (fun e => readonly e = true) t.
Proof.
  intros Hdry. split; [by apply keeps_disk_RunE|].
  split; [rewrite Execute_world; by apply keeps_disk_RunE|].
  apply (emits_RunE cfg (fun e => readonly e = true)); [done|].
  intros Hfalse. congruence.
Qed.

Lemma dryrun_is_noop_witness :
  disk (snd (RunE pair_env dry_everything [ "a/b" ] (init_world pair_env []))) = [].
Proof.
  destruct (dryrun_is_noop pair_env dry_everything [ "a/b" ]
              (init_world pair_env [])) as [H _]; [reflexivity|exact H].
Defined.

(** ** Moving the duplicates aside *)

Section Move_aside.

Context {E : Env} (cfg : Flags).










End Move_aside.



(** C6, on the code. The input directory is [a/b]; the walk finds
    [a/b/x] and its newer copy [a/b/y], which becomes the duplicate. The
    path given to [os.Remove] is [Join(Dir("a/b"), "a/b/y")], that is
    [a/a/b/y], not the walked path [a/b/y]: the call fails, the run ends
    with that error and the duplicate is still on the disk. The same
    happens with an absolute input directory. *)
Theorem remove_misses_the_original :
  let run := RunE remove_env remove_in_place [ "a/b" ] (init_world remove_env []) in
  elements (dupFiles (index (snd run))) = [ {| Path := "a/b/y"; Time := 2 |} ] /\
  mutations (trace (snd run))
  = [ (Remove "a/a/b/y",
       Some (ErrNotExist "remove a/a/b/y: no such file or directory")) ] /\
  fst run = Ret (Some (ErrNotExist "remove a/a/b/y: no such file or directory")) /\
  disk (snd run) = [] /\
  remove_target "/srv/data" {| Path := "/srv/data/y"; Time := 2 |}
  = "/srv/srv/data/y".
Proof. vm_compute. repeat split; reflexivity. Qed.

(** C7, on the code. Duplicates are to be copied aside and the dump
    directory cannot be created: [copyToDirectory] logs the error and
    returns it, the loop on line 120 drops it, [RunE] returns [nil] and
    the process exits with status 0. *)
Theorem executor_error_is_dropped :
  let run := RunE denied_env copy_aside [ "a/b" ] (init_world denied_env []) in
  mutations (trace (snd run))
  = [ (MkdirAll "dupdump/a/b",
       Some (ErrOther "mkdir dupdump/a/b: permission denied")) ] /\
  EvLog ErrorLevel "mkdir dupdump/a/b: permission denied" ∈ trace (snd run) /\
  fst run = Ret None /\
  fst (Execute denied_env copy_aside [ "a/b" ] (init_world denied_env [])) = 0.
Proof.
  vm_compute. repeat split; try reflexivity.
  do 12 apply list_elem_of_further. apply list_elem_of_here.
Qed.

(** * Further properties of the code *)

(** ** The index, over whole sequences of observations *)

Lemma fold_resolve_is_Some l : forall cur r,
  fold_left resolve l cur = Some r -> cur = Some r \/ r ∈ l.
Proof.
  induction l as [|x l IH]; intros cur r H; simpl in H; [by left|].
  apply IH in H as [H|H]; [|right; by right].
  destruct cur as [old|]; simpl in H.
  - destruct (replaces old x); simplify_eq; [right; by left|by left].
  - simplify_eq. right. by left.
Qed.

Lemma fold_resolve_None l : forall cur,
  fold_left resolve l cur = None <-> cur = None /\ l = [].
Proof.
  induction l as [|x l IH]; intros cur; simpl.
  - split; [intros ->; by split | by intros [-> _]].
  - rewrite IH. split; [|by intros [_ Hnil]].
    intros [Hres _]. by destruct cur.
Qed.

(** X1: after any sequence of observations on empty maps, [files] has an
    entry for exactly the fingerprints that were observed, and the record
    stored for a fingerprint is one of the records observed with it. *)
Theorem canonical_is_observed (obs : list (string * PathTime)) (s : string) :
  (files (observe_all obs empty_index) !! s = None <-> s ∉ obs.*1) /\
  (forall r, files (observe_all obs empty_index) !! s = Some r -> (s, r) ∈ obs).
Proof.
  rewrite observe_all_files. simpl. rewrite lookup_empty. split.
  - rewrite fold_resolve_None. split.
    + intros [_ Hnil] Hin. apply list_elem_of_fmap in Hin as ([s' r] & -> & Hin).
      apply (proj2 (elem_of_records_of s' r obs)) in Hin. simpl in Hnil.
      rewrite Hnil in Hin. by apply elem_of_nil in Hin.
    + intros Hnot. split; [done|].
      destruct (records_of s obs) as [|r l] eqn:Hrec; [done|].
      destruct Hnot. apply list_elem_of_fmap. exists (s, r). split; [done|].
      apply elem_of_records_of. rewrite Hrec. by left.
  - intros r H. apply fold_resolve_is_Some in H as [H|H]; [done|].
    by apply elem_of_records_of.
Qed.

Lemma observe_all_fresh obs : forall ix,
  NoDup obs.*1 ->
  (forall s, s ∈ obs.*1 -> files ix !! s = None) ->
  dupFiles (observe_all obs ix) = dupFiles ix /\
  (forall s r, (s, r) ∈ obs -> files (observe_all obs ix) !! s = Some r).
Proof.
  induction obs as [|[s r] obs IH]; intros ix Hnd Hfresh.
  - split; [done|]. intros s r H. by apply elem_of_nil in H.
  - simpl in *. apply NoDup_cons in Hnd as [Hs Hnd].
    rewrite (observe_first s r ix) by (apply Hfresh; by left).
    destruct (IH {| files := <[s:=r]> (files ix); dupFiles := dupFiles ix |} Hnd)
      as [Hd Hf].
    { intros s' Hs'. simpl. rewrite lookup_insert_ne by (intros ->; done).
      apply Hfresh. by right. }
    split; [exact Hd|].
    intros s' r' [Heq|Hin]%elem_of_cons; [|by apply Hf].
    injection Heq as -> ->.
    rewrite observe_all_files. simpl. rewrite lookup_insert_eq.
    assert (records_of s obs = []) as ->; [|done].
    destruct (records_of s obs) as [|x l] eqn:Hrec; [done|].
    destruct Hs. apply list_elem_of_fmap. exists (s, x). split; [done|].
    apply elem_of_records_of. rewrite Hrec. by left.
Qed.

(** X2: when no two observed files have the same fingerprint, nothing is
    reported as a duplicate and every observed file is the canonical
    record of its fingerprint. *)
Theorem unique_contents_no_duplicates (obs : list (string * PathTime)) :
  NoDup obs.*1 ->
  dupFiles (observe_all obs empty_index) = ∅ /\
  (forall s r, (s, r) ∈ obs ->
     files (observe_all obs empty_index) !! s = Some r).
Proof.
  intros Hnd. apply (observe_all_fresh obs empty_index Hnd).
  intros s _. apply lookup_empty.
Qed.

Lemma unique_contents_no_duplicates_witness :
  dupFiles (observe_all [ ("h1", older_copy); ("h2", newer_copy) ] empty_index) = ∅.
Proof.
  apply unique_contents_no_duplicates.
  apply NoDup_cons. split.
  - intros H. apply elem_of_cons in H as [H|H]; [discriminate H|].
    by apply elem_of_nil in H.
  - apply NoDup_cons. split; [apply not_elem_of_nil | apply NoDup_nil_2].
Defined.

Lemma records_of_snoc s s' r obs :
  records_of s (obs ++ [ (s', r) ])
  = records_of s obs ++ (if decide (s' = s) then [ r ] else []).
Proof.
  unfold records_of. rewrite filter_app, fmap_app. f_equal.
  rewrite filter_cons. simpl. by destruct (decide (s' = s)).
Qed.

Lemma observe_all_snoc obs o ix :
  observe_all (obs ++ [ o ]) ix = observe (fst o) (snd o) (observe_all obs ix).
Proof. unfold observe_all. by rewrite fold_left_app. Qed.

Lemma elem_of_tail_app {A} (x : A) (l l' : list A) :
  x ∈ tail l -> x ∈ tail (l ++ l').
Proof.
  destruct l as [|y l]; simpl; [intros H; by apply elem_of_nil in H|].
  intros H. apply elem_of_app. by left.
Qed.

Lemma elem_of_tail {A} (x : A) (l : list A) : x ∈ tail l -> x ∈ l.
Proof.
  destruct l as [|y l]; simpl; [done|]. intros H. by right.
Qed.

(** X3: when the first file walked of every content is never displaced by
    a later file of that content (it is neither later in time nor longer
    in path than any of them), the partition is exact: the canonical
    record of a fingerprint is the first record observed with it, the
    duplicates are exactly the records observed after the first of their
    fingerprint, and, the records being pairwise distinct, no canonical
    record is among the duplicates. *)
Theorem first_wins_partition (obs : list (string * PathTime)) :
  (forall s m x, head (records_of s obs) = Some m -> x ∈ records_of s obs ->
     replaces m x = false) ->
  let ix := observe_all obs empty_index in
  (forall s, files ix !! s = head (records_of s obs)) /\
  (forall r, r ∈ dupFiles ix <-> exists s, r ∈ tail (records_of s obs)) /\
  (NoDup obs.*2 -> forall s m, files ix !! s = Some m -> m ∉ dupFiles ix).
Proof.
  simpl. induction obs as [|[s r] obs IH] using rev_ind; intros Hfirst.
  { split; [|split].
    - intros s. apply lookup_empty.
    - intros r. split; [intros H; by apply not_elem_of_empty in H|].
      intros (s & H). by apply elem_of_nil in H.
    - intros _ s m H. unfold observe_all in H. simpl in H.
      by rewrite lookup_empty in H. }
  assert (forall s0 m x, head (records_of s0 obs) = Some m ->
            x ∈ records_of s0 obs -> replaces m x = false) as Hfirst'.
  { intros s0 m x Hh Hx. apply (Hfirst s0).
    - rewrite records_of_snoc. destruct (records_of s0 obs); [done|exact Hh].
    - rewrite records_of_snoc. apply elem_of_app. by left. }
  destruct (IH Hfirst') as (Hf & Hd & Hn). clear IH Hfirst'.
  rewrite observe_all_snoc. simpl.
  set (ix := observe_all obs empty_index) in *.
  assert (forall x, x ∈ dupFiles ix -> x ∈ obs.*2) as Hdin.
  { intros x (s0 & Hx)%Hd. apply elem_of_tail in Hx.
    apply list_elem_of_fmap. exists (s0, x). split; [done|].
    by apply elem_of_records_of. }
  assert (forall s0 m, files ix !! s0 = Some m -> m ∈ obs.*2) as Hfin.
  { intros s0 m Hm. rewrite Hf in Hm. apply list_elem_of_fmap. exists (s0, m).
    split; [done|]. apply elem_of_records_of.
    destruct (records_of s0 obs); [done|]. injection Hm as ->. by left. }
  assert (NoDup (obs ++ [ (s, r) ]).*2 -> NoDup obs.*2 /\ r ∉ obs.*2) as Hsplit.
  { rewrite fmap_app. simpl. intros Hnd. apply NoDup_app in Hnd as (H1 & H2 & _).
    split; [done|]. intros Hin. apply (H2 r Hin). by left. }
  pose proof (Hf s) as Hs.
  destruct (records_of s obs) as [|m l] eqn:Hrec; simpl in Hs.
  - rewrite (observe_first s r ix Hs). simpl. split; [|split].
    + intros s0. rewrite records_of_snoc.
      destruct (decide (s = s0)) as [<-|Hne].
      * by rewrite lookup_insert_eq, Hrec.
      * by rewrite lookup_insert_ne, app_nil_r.
    + intros x. rewrite Hd. split; intros (s0 & Hx); exists s0.
      * rewrite records_of_snoc. by apply elem_of_tail_app.
      * rewrite records_of_snoc in Hx.
        destruct (decide (s = s0)) as [<-|Hne]; [|by rewrite app_nil_r in Hx].
        rewrite Hrec in Hx. by apply elem_of_nil in Hx.
    + intros (Hnd & Hr)%Hsplit s0 m0.
      destruct (decide (s = s0)) as [<-|Hne].
      * rewrite lookup_insert_eq. intros [= <-] Hin. by apply Hr, Hdin.
      * rewrite lookup_insert_ne by done. by apply Hn.
  - assert (replaces m r = false) as Hkeep.
    { apply (Hfirst s).
      - by rewrite records_of_snoc, Hrec.
      - rewrite records_of_snoc, decide_True by done.
        apply elem_of_app. right. by left. }
    rewrite (observe_keep s m r ix Hs Hkeep). simpl. split; [|split].
    + intros s0. rewrite Hf, records_of_snoc.
      destruct (decide (s = s0)) as [<-|Hne]; [|by rewrite app_nil_r].
      by rewrite Hrec.
    + intros x. rewrite elem_of_union, elem_of_singleton, Hd. split.
      * intros [->|(s0 & Hx)].
        -- exists s. rewrite records_of_snoc, decide_True, Hrec by done.
           simpl. apply elem_of_app. right. by left.
        -- exists s0. rewrite records_of_snoc. by apply elem_of_tail_app.
      * intros (s0 & Hx). rewrite records_of_snoc in Hx.
        destruct (decide (s = s0)) as [<-|Hne].
        -- rewrite Hrec in Hx. simpl in Hx. apply elem_of_app in Hx as [Hx|Hx].
           ++ right. exists s. by rewrite Hrec.
           ++ left. by apply list_elem_of_singleton in Hx.
        -- rewrite app_nil_r in Hx. right. by exists s0.
    + intros (Hnd & Hr)%Hsplit s0 m0 Hm0 [Hin|Hin]%elem_of_union.
      * apply elem_of_singleton in Hin. subst m0. by apply Hr, (Hfin s0).
      * by apply (Hn Hnd s0 m0).
Qed.

Lemma first_wins_partition_witness :
  files (observe_all [ ("h", older_copy); ("h", newer_copy) ] empty_index) !! "h"
  = Some older_copy.
Proof.
  destruct (first_wins_partition [ ("h", older_copy); ("h", newer_copy) ])
    as [H _].
  - intros s m x Hh Hx. unfold records_of in Hh, Hx.
    rewrite !filter_cons, filter_nil in Hh, Hx. simpl in Hh, Hx.
    destruct (decide ("h" = s)); simpl in Hh, Hx.
    + injection Hh as <-.
      apply elem_of_cons in Hx as [->|Hx]; [reflexivity|].
      apply elem_of_cons in Hx as [->|Hx]; [reflexivity|].
      by apply elem_of_nil in Hx.
    + discriminate Hh.
  - rewrite H. reflexivity.
Defined.

(** ** The flatten namer, over whole lists of files *)

Lemma flatten_names_fresh fs : forall filenames : gmap string Z,
  NoDup ((fun f => filepath.Base (Path f)) <$> fs) ->
  (forall f, f ∈ fs -> filenames !! filepath.Base (Path f) = None) ->
  flatten_names filenames fs = (fun f => filepath.Base (Path f)) <$> fs.
Proof.
  induction fs as [|f fs IH]; intros filenames Hnd Hfresh; [done|].
  simpl in *. apply NoDup_cons in Hnd as [Hf Hnd].
  unfold flattenName. rewrite (Hfresh f) by (by left). f_equal.
  apply IH; [done|]. intros g Hg.
  rewrite lookup_insert_ne; [apply Hfresh; by right|].
  intros Heq. apply Hf. rewrite Heq. apply list_elem_of_fmap. by exists g.
Qed.

(** X4: when the canonical files have pairwise distinct base names, each
    is flattened under its own base name, so the output names are
    pairwise distinct. *)
Theorem distinct_bases_keep_their_names (fs : list PathTime) :
  NoDup ((fun f => filepath.Base (Path f)) <$> fs) ->
  flatten_names ∅ fs = (fun f => filepath.Base (Path f)) <$> fs /\
  NoDup (flatten_names ∅ fs).
Proof.
  intros Hnd.
  assert (flatten_names ∅ fs = (fun f => filepath.Base (Path f)) <$> fs) as Heq.
  { apply flatten_names_fresh; [done|]. intros f _. apply lookup_empty. }
  split; [exact Heq|]. by rewrite Heq.
Qed.

Lemma distinct_bases_keep_their_names_witness :
  flatten_names ∅ [ {| Path := "a/x"; Time := 1 |}; {| Path := "b/y"; Time := 2 |} ]
  = [ "x"; "y" ].
Proof.
  destruct (distinct_bases_keep_their_names
              [ {| Path := "a/x"; Time := 1 |}; {| Path := "b/y"; Time := 2 |} ])
    as [H _]; [|exact H].
  apply NoDup_cons. split.
  - intros H. apply elem_of_cons in H as [H|H]; [discriminate H|].
    by apply elem_of_nil in H.
  - apply NoDup_cons. split; [apply not_elem_of_nil | apply NoDup_nil_2].
Defined.

Lemma append_length (a b : string) :
  String.length (a +:+ b) = (String.length a + String.length b)%nat.
Proof. induction a as [|c a IH]; simpl; [done|]. by rewrite IH. Qed.

Lemma Sprint_1_fresh (b : string) : Sprint b 1 <> b.
Proof.
  intros H. apply (f_equal String.length) in H. unfold Sprint in H.
  rewrite append_length in H.
  assert (String.length (pretty 1) = 1%nat) as Hp by reflexivity.
  rewrite Hp in H. lia.
Qed.

Lemma flatten_names_taken b fs : forall filenames : gmap string Z,
  filenames !! b = Some 1 ->
  (forall f, f ∈ fs -> filepath.Base (Path f) = b) ->
  flatten_names filenames fs = replicate (length fs) (Sprint b 1).
Proof.
  induction fs as [|f fs IH]; intros filenames Hb Hall; [done|].
  simpl. unfold flattenName. rewrite (Hall f) by (by left). rewrite Hb. f_equal.
  apply IH.
  - rewrite lookup_insert_ne; [done|apply Sprint_1_fresh].
  - intros g Hg. apply Hall. by right.
Qed.

(** X5: canonical files that all share one base name [b] are flattened as
    [b] for the first and [b1] for every later one: the output names are
    pairwise distinct exactly when there are at most two such files. *)
Theorem shared_base_names (b : string) (f0 : PathTime) (fs : list PathTime) :
  filepath.Base (Path f0) = b ->
  (forall f, f ∈ fs -> filepath.Base (Path f) = b) ->
  flatten_names ∅ (f0 :: fs) = b :: replicate (length fs) (Sprint b 1) /\
  (NoDup (flatten_names ∅ (f0 :: fs)) <-> (length fs <= 1)%nat).
Proof.
  intros H0 Hall.
  assert (flatten_names ∅ (f0 :: fs) = b :: replicate (length fs) (Sprint b 1))
    as Heq.
  { simpl. unfold flattenName. rewrite H0, lookup_empty. f_equal.
    apply flatten_names_taken; [apply lookup_insert_eq|done]. }
  split; [exact Heq|]. rewrite Heq. clear Heq.
  destruct fs as [|f1 [|f2 fs]]; simpl.
  - split; [lia|]. intros _. apply NoDup_singleton.
  - split; [lia|]. intros _. apply NoDup_cons. split.
    + intros H. apply list_elem_of_singleton in H. by apply (Sprint_1_fresh b).
    + apply NoDup_singleton.
  - split; [|lia]. intros Hnd.
    apply NoDup_cons in Hnd as [_ Hnd]. apply NoDup_cons in Hnd as [Hnot _].
    destruct Hnot. by left.
Qed.

Lemma shared_base_names_witness :
  flatten_names ∅ three_x = "x" :: replicate 2 (Sprint "x" 1).
Proof.
  destruct (shared_base_names "x" {| Path := "a/x"; Time := 1 |}
              [ {| Path := "b/x"; Time := 2 |}; {| Path := "c/x"; Time := 3 |} ])
    as [H _]; [reflexivity| |exact H].
  intros f Hf.
  apply elem_of_cons in Hf as [->|Hf]; [reflexivity|].
  apply elem_of_cons in Hf as [->|Hf]; [reflexivity|].
  by apply elem_of_nil in Hf.
Defined.

(** ** Remove in place, when the parent of the input directory is [.] or [/] *)

Lemma Join_dot (p : string) :
  filepath.rooted p = false -> filepath.Join [ "."; p ] = filepath.Clean p.
Proof.
  intros Hr. unfold filepath.Join. simpl. unfold filepath.Clean. simpl.
  rewrite Hr. reflexivity.
Qed.

Lemma Join_root (p : string) :
  filepath.rooted p = true -> filepath.Join [ "/"; p ] = filepath.Clean p.
Proof.
  intros Hr. unfold filepath.Join. simpl. unfold filepath.Clean. simpl.
  rewrite Hr. reflexivity.
Qed.

Lemma remove_target_walked root file :
  (filepath.Dir (filepath.Clean root) = "." /\ filepath.rooted (Path file) = false)
  \/ (filepath.Dir (filepath.Clean root) = "/" /\ filepath.rooted (Path file) = true) ->
  remove_target root file = filepath.Clean (Path file).
Proof.
  unfold remove_target. intros [[-> Hr]|[-> Hr]];
    [by apply Join_dot | by apply Join_root].
Qed.

(** X6: when the parent of the cleaned input directory is [.] (a relative
    directory of one element, walked paths relative) or [/] (a directory
    directly under the root, walked paths absolute), the remove-in-place
    loop calls [os.Remove] on the cleaned walked path of a duplicate and on
    nothing else, and makes no other mutating call. *)
Theorem remove_in_place_hits_walked_paths (E : Env) (cfg : Flags)
    (root : string) (ds : list PathTime) :
  (filepath.Dir (filepath.Clean root) = "." /\
   forall file, file ∈ ds -> filepath.rooted (Path file) = false)
  \/ (filepath.Dir (filepath.Clean root) = "/" /\
      forall file, file ∈ ds -> filepath.rooted (Path file) = true) ->
  emits (removes_walked ds) (remove_dups E cfg root ds).
Proof.
  intros Hroot.
  assert (forall sub, sub ⊆ ds ->
            emits (removes_walked ds) (remove_dups E cfg root sub)) as Hsub.
  { induction sub as [|file sub IH]; intros Hin; simpl; [apply emits_ret|].
    assert (emits (removes_walked ds) (remove_dups E cfg root sub)) as Hrest.
    { apply IH. intros x Hx. apply Hin. by right. }
    unfold logf. apply emits_bind; [by apply emits_emit|]. intros _.
    destruct (dryrun cfg); [exact Hrest|].
    apply emits_bind.
    - apply emits_exec. intros res. exists file. split; [apply Hin; by left|].
      apply remove_target_walked.
      destruct Hroot as [[Hd Hr]|[Hd Hr]]; [left|right];
        (split; [done|apply Hr, Hin; by left]).
    - intros [e|]; [apply emits_ret|exact Hrest]. }
  by apply Hsub.
Qed.

Lemma remove_in_place_hits_walked_paths_witness :
  emits (E:=pair_env) (removes_walked [ {| Path := "data/y"; Time := 2 |} ])
    (remove_dups pair_env remove_in_place "data"
       [ {| Path := "data/y"; Time := 2 |} ]).
Proof.
  apply remove_in_place_hits_walked_paths. left. split; [reflexivity|].
  intros file Hf. apply elem_of_cons in Hf as [->|Hf]; [reflexivity|].
  by apply elem_of_nil in Hf.
Defined.

(** ** Failing fast *)

Section Run_stages.

Context {E : Env} (cfg : Flags).

(** X7: the checks before the walk. With a number of arguments other than
    one, with an input directory that [os.Stat] reports missing, or with
    [flatten] set and a flatten directory that is not reported missing,
    [RunE] returns its error and the process exits with status 1 before a
    single file is opened: the two maps and the disk are as before and the
    only events are the one or two [os.Stat] calls. *)
Theorem RunE_fails_fast (args : list string) (w : World E) :
  (length args <> 1%nat ->
     RunE E cfg args w
     = (Ret (Some (Errorf
          "requires the path to the input directory to deduplicate files")), w)
     /\ fst (Execute E cfg args w) = 1) /\
  (forall root, args = [ root ] ->
     is_ErrNotExist (os_Stat E root (disk w)) = true ->
     RunE E cfg args w
     = (Ret (Some (Errorf "input directory to deduplicate file must exist")),
        add_event (EvStat root) w)
     /\ fst (Execute E cfg args w) = 1) /\
  (forall root, args = [ root ] ->
     is_ErrNotExist (os_Stat E root (disk w)) = false ->
     flatten cfg = true ->
     is_ErrNotExist (os_Stat E (fdir cfg) (disk w)) = false ->
     RunE E cfg args w
     = (Ret (Some (Errorf "flatten directory must not exist")),
        add_event (EvStat (fdir cfg)) (add_event (EvStat root) w))
     /\ fst (Execute E cfg args w) = 1).
Proof.
  split; [|split].
  - intros Hlen.
    assert (RunE E cfg args w
            = (Ret (Some (Errorf
                 "requires the path to the input directory to deduplicate files")),
               w)) as Hrun.
    { destruct args as [|root [|]]; [done| |done]. by destruct Hlen. }
    split; [exact Hrun|]. unfold Execute. by rewrite Hrun.
  - intros root -> Hst.
    assert (RunE E cfg [ root ] w
            = (Ret (Some (Errorf "input directory to deduplicate file must exist")),
               add_event (EvStat root) w)) as Hrun.
    { unfold RunE, bind, stat. simpl. by rewrite Hst. }
    split; [exact Hrun|]. unfold Execute. by rewrite Hrun.
  - intros root -> Hst Hfl Hfd.
    assert (RunE E cfg [ root ] w
            = (Ret (Some (Errorf "flatten directory must not exist")),
               add_event (EvStat (fdir cfg)) (add_event (EvStat root) w))) as Hrun.
    { unfold RunE, bind, stat. simpl. rewrite Hst, Hfl. simpl. by rewrite Hfd. }
    split; [exact Hrun|]. unfold Execute. by rewrite Hrun.
Qed.

(** Past the checks, a run is the walk followed by the two action
    phases. *)
Lemma RunE_walk_stage root (w : World E) :
  preconditions_hold cfg root (disk w) ->
  exists ws t0,
    disk ws = disk w /\ index ws = index w /\
    trace ws = trace w ++ t0 /\ Forall (fun e => readonly e = true) t0 /\
    RunE E cfg [ root ] w
    = match walk E (walk_visits E root (disk w)) ws with
      | (Ret (Some e), w') => (Ret (Some e), w')
      | (Ret None, w') => after_walk E cfg root w'
      | (Exit st, w') => (Exit st, w')
      end.
Proof.
  intros [Hroot Hfdir]. unfold RunE, after_walk.
  destruct (flatten cfg) eqn:Hfl.
  - exists (add_event (EvStat (fdir cfg)) (add_event (EvStat root) w)),
           [ EvStat root; EvStat (fdir cfg) ].
    split; [done|]. split; [done|].
    split; [simpl; by rewrite <- app_assoc|].
    split; [by repeat constructor|].
    unfold bind at 1, stat at 1. simpl. rewrite Hroot.
    unfold bind at 1. unfold bind at 1, stat at 1. simpl.
    rewrite (Hfdir eq_refl). simpl. unfold bind at 1.
    by destruct (walk E _ _) as [[[e|]|st] w'].
  - exists (add_event (EvStat root) w), [ EvStat root ].
    split; [done|]. split; [done|]. split; [done|].
    split; [by repeat constructor|].
    unfold bind at 1, stat at 1. simpl. rewrite Hroot.
    unfold bind at 1. simpl. unfold bind at 1.
    by destruct (walk E _ _) as [[[e|]|st] w'].
Qed.

Lemma walkFn_walks_on v (w : World E) :
  walks_on (disk w) v ->
  exists w', walkFn E v w = (Ret None, w') /\ disk w' = disk w.
Proof.
  intros (He & [Hd | [Hz | (c & Hc)]]).
  - exists w. by rewrite walkFn_dir.
  - destruct (v_isdir v) eqn:Hd.
    + exists w. by rewrite walkFn_dir.
    + eexists. by rewrite walkFn_skip.
  - destruct (walkFn_hashes v c w Hc) as (w' & Hw & Hdisk & _). by exists w'.
Qed.

Lemma walk_walks_on l : forall w : World E,
  Forall (walks_on (disk w)) l ->
  exists w', walk E l w = (Ret None, w') /\ disk w' = disk w.
Proof.
  induction l as [|v l IH]; intros w Hall.
  - by exists w.
  - apply Forall_cons in Hall as [Hv Hl].
    destruct (walkFn_walks_on v w Hv) as (w1 & Hw1 & Hd1).
    rewrite (walk_cons_nil _ _ _ _ Hw1).
    rewrite <- Hd1 in Hl. destruct (IH w1 Hl) as (w2 & Hw2 & Hd2).
    exists w2. split; [done|]. congruence.
Qed.

Lemma walkFn_fails_with v e (w : World E) :
  fails_with (disk w) v e ->
  exists w', walkFn E v w = (Ret (Some e), w').
Proof.
  intros [He | (He & Hd & Hs & Ho)]; unfold walkFn; rewrite He.
  - eexists. reflexivity.
  - rewrite Hd. apply Z.eqb_neq in Hs. rewrite Hs.
    unfold bind, open. simpl. rewrite Ho. eexists. reflexivity.
Qed.

Lemma walkFn_read_fails v e (w : World E) :
  read_fails (disk w) v e ->
  exists w', walkFn E v w = (Exit 1, w') /\
             last (trace w') = Some (EvLog Fatal (Error_ e)).
Proof.
  intros (He & Hd & Hs & Ho & Hr). unfold walkFn. rewrite He, Hd.
  apply Z.eqb_neq in Hs. rewrite Hs.
  unfold bind, open, readAll. simpl. rewrite Ho. simpl. rewrite Hr. simpl.
  eexists. split; [reflexivity|]. simpl. apply last_snoc.
Qed.

End Run_stages.

Lemma RunE_fails_fast_witness :
  fst (Execute pair_env copy_aside [] (init_world pair_env [])) = 1.
Proof.
  destruct (RunE_fails_fast (E:=pair_env) copy_aside [] (init_world pair_env []))
    as [H _].
  destruct H as [_ H]; [simpl; lia | exact H].
Defined.

Section Walk_aborts.

Context {E : Env} (cfg : Flags).

Lemma walk_quiet vs (w ws : World E) t0 :
  disk ws = disk w -> trace ws = trace w ++ t0 ->
  Forall (fun e => readonly e = true) t0 ->
  disk (snd (walk E vs ws)) = disk w /\
  exists t, trace (snd (walk E vs ws)) = trace w ++ t /\
            Forall (fun e => readonly e = true) t.
Proof.
  intros Hd Ht Hro. split; [by rewrite keeps_disk_walk|].
  destruct (emits_walk (fun e => readonly e = true) (fun e H => H) vs ws)
    as (t1 & Ht1 & Hro1).
  exists (t0 ++ t1). rewrite Ht1, Ht, app_assoc. split; [done|].
  by apply Forall_app.
Qed.

(** X8: an error during the walk ends the run. When the visits before
    [v] pass and the callback fails on [v] (the walk hands in an error,
    or the file does not open), [RunE] returns that very error and the
    process exits with status 1; whatever the flags, nothing has been
    copied, moved or removed: the disk is unchanged and every event is a
    log line or a read-only call. *)
Theorem walk_error_aborts_run (root : string) (w : World E)
    (pre post : list Visit) (v : Visit) (e : error) :
  preconditions_hold cfg root (disk w) ->
  walk_visits E root (disk w) = pre ++ v :: post ->
  Forall (walks_on (disk w)) pre ->
  fails_with (disk w) v e ->
  fst (RunE E cfg [ root ] w) = Ret (Some e) /\
  fst (Execute E cfg [ root ] w) = 1 /\
  disk (snd (RunE E cfg [ root ] w)) = disk w /\
  exists t, trace (snd (RunE E cfg [ root ] w)) = trace w ++ t /\
            Forall (fun e => readonly e = true) t.
Proof.
  intros Hpre Hvs Hall Hfail.
  destruct (RunE_walk_stage cfg root w Hpre) as (ws & t0 & Hd & _ & Ht & Hro & Hrun).
  assert (fst (walk E (pre ++ v :: post) ws) = Ret (Some e)) as Hres.
  { rewrite walk_app. rewrite <- Hd in Hall.
    destruct (walk_walks_on pre ws Hall) as (w1 & -> & Hd1).
    rewrite <- Hd, <- Hd1 in Hfail.
    destruct (walkFn_fails_with v e w1 Hfail) as (w2 & Hw2).
    simpl. unfold bind. by rewrite Hw2. }
  destruct (walk_quiet (pre ++ v :: post) w ws t0 Hd Ht Hro) as [Hdisk Htrace].
  rewrite Hvs in Hrun.
  assert (RunE E cfg [ root ] w = walk E (pre ++ v :: post) ws) as Heq.
  { rewrite Hrun. destruct (walk E (pre ++ v :: post) ws) as [[[e'|]|st] w'];
      simpl in Hres; [done|discriminate Hres|done]. }
  unfold Execute. rewrite Heq.
  destruct (walk E (pre ++ v :: post) ws) as [r w'] eqn:Hwalk. simpl in *.
  subst r. by repeat split.
Qed.

(** X9: a file that opens but fails while being read ends the process:
    the error is logged at level fatal as the last event and the process
    exits with status 1, the disk being unchanged and every event a log
    line or a read-only call. *)
Theorem read_failure_exits (root : string) (w : World E)
    (pre post : list Visit) (v : Visit) (e : error) :
  preconditions_hold cfg root (disk w) ->
  walk_visits E root (disk w) = pre ++ v :: post ->
  Forall (walks_on (disk w)) pre ->
  read_fails (disk w) v e ->
  fst (RunE E cfg [ root ] w) = Exit 1 /\
  fst (Execute E cfg [ root ] w) = 1 /\
  last (trace (snd (RunE E cfg [ root ] w))) = Some (EvLog Fatal (Error_ e)) /\
  disk (snd (RunE E cfg [ root ] w)) = disk w /\
  exists t, trace (snd (RunE E cfg [ root ] w)) = trace w ++ t /\
            Forall (fun e => readonly e = true) t.
Proof.
  intros Hpre Hvs Hall Hfail.
  destruct (RunE_walk_stage cfg root w Hpre) as (ws & t0 & Hd & _ & Ht & Hro & Hrun).
  assert (fst (walk E (pre ++ v :: post) ws) = Exit 1 /\
          last (trace (snd (walk E (pre ++ v :: post) ws)))
          = Some (EvLog Fatal (Error_ e))) as [Hres Hlast].
  { rewrite walk_app. rewrite <- Hd in Hall.
    destruct (walk_walks_on pre ws Hall) as (w1 & -> & Hd1).
    rewrite <- Hd, <- Hd1 in Hfail.
    destruct (walkFn_read_fails v e w1 Hfail) as (w2 & Hw2 & Hl).
    simpl. unfold bind. by rewrite Hw2. }
  destruct (walk_quiet (pre ++ v :: post) w ws t0 Hd Ht Hro) as [Hdisk Htrace].
  rewrite Hvs in Hrun.
  assert (RunE E cfg [ root ] w = walk E (pre ++ v :: post) ws) as Heq.
  { rewrite Hrun. destruct (walk E (pre ++ v :: post) ws) as [[[e'|]|st] w'];
      simpl in Hres; [discriminate Hres|discriminate Hres|done]. }
  unfold Execute. rewrite Heq.
  destruct (walk E (pre ++ v :: post) ws) as [r w'] eqn:Hwalk. simpl in *.
  subst r. by repeat split.
Qed.

End Walk_aborts.

Lemma walk_error_aborts_run_witness :
  fst (Execute (faulty_env [ visit_x; visit_y ] is_y never) move_aside [ "a/b" ]
         (init_world (faulty_env [ visit_x; visit_y ] is_y never) [])) = 1.
Proof.
  destruct (walk_error_aborts_run (E:=faulty_env [ visit_x; visit_y ] is_y never)
              move_aside "a/b"
              (init_world (faulty_env [ visit_x; visit_y ] is_y never) [])
              [ visit_x ] [] visit_y (ErrOther "open a/b/y: permission denied"))
    as (_ & H & _).
  - split; [reflexivity|]. intros Hfl. discriminate Hfl.
  - reflexivity.
  - apply List.Forall_cons; [|apply List.Forall_nil].
    split; [reflexivity|]. right. right. exists "A".
    unfold hashes_to. simpl. repeat split; try reflexivity. lia.
  - right. simpl. repeat split; try reflexivity. lia.
  - exact H.
Defined.

Lemma read_failure_exits_witness :
  fst (RunE (faulty_env [ visit_x; visit_y ] never is_y) move_aside [ "a/b" ]
         (init_world (faulty_env [ visit_x; visit_y ] never is_y) [])) = Exit 1.
Proof.
  destruct (read_failure_exits (E:=faulty_env [ visit_x; visit_y ] never is_y)
              move_aside "a/b"
              (init_world (faulty_env [ visit_x; visit_y ] never is_y) [])
              [ visit_x ] [] visit_y (ErrOther "read a/b/y: input/output error"))
    as (H & _).
  - split; [reflexivity|]. intros Hfl. discriminate Hfl.
  - reflexivity.
  - apply List.Forall_cons; [|apply List.Forall_nil].
    split; [reflexivity|]. right. right. exists "A".
    unfold hashes_to. simpl. repeat split; try reflexivity. lia.
  - unfold read_fails. simpl. repeat split; try reflexivity. lia.
  - exact H.
Defined.

(** ** What the flags allow *)

Section Flags_gate.

Context {E : Env} (cfg : Flags).

Lemma permitted_readonly e : readonly e = true -> permitted cfg e.
Proof. by destruct e. Qed.

Lemma permitted_copy filename destinationDir newFilename :
  (dedup cfg = true /\ rdup cfg = false) \/
  (flatten cfg = true /\ remove cfg = false) ->
  emits (permitted cfg)
        (copyToDirectory E cfg filename destinationDir newFilename).
Proof.
  intros Hmode. apply emits_copyToDirectory; [apply permitted_readonly|].
  intros Hdry op res Hrm Hrn. split; [done|].
  destruct op; try done.
  - destruct Hmode as [[? _]|[? _]]; [by left|by right].
  - by destruct (Hrn src dst).
  - by destruct (Hrm path).
Qed.

Lemma permitted_move filename destinationDir newFilename :
  (dedup cfg = true /\ rdup cfg = true) \/
  (flatten cfg = true /\ remove cfg = true) ->
  emits (permitted cfg)
        (moveToDirectory E cfg filename destinationDir newFilename).
Proof.
  intros Hmode. apply emits_moveToDirectory; [apply permitted_readonly|].
  intros Hdry res. split; (split; [done|]); [|done].
  destruct Hmode as [[? _]|[? _]]; [by left|by right].
Qed.

Lemma permitted_handle_dups root : emits (permitted cfg) (handle_dups E cfg root).
Proof.
  unfold handle_dups, logf.
  apply emits_bind; [apply emits_get_index|]. intros ix.
  destruct (dedup cfg) eqn:Hdedup, (rdup cfg) eqn:Hrdup; try apply emits_ret.
  - apply emits_bind; [by apply emits_emit|]. intros _.
    apply emits_bind; [|intros _; apply emits_ret].
    induction (range_dupFiles E (dupFiles ix)) as [|file ds IH]; simpl;
      [apply emits_ret|].
    apply emits_bind; [|by intros _]. apply permitted_move. by left.
  - apply emits_bind; [by apply emits_emit|]. intros _.
    apply emits_bind; [|intros _; apply emits_ret].
    induction (range_dupFiles E (dupFiles ix)) as [|file ds IH]; simpl;
      [apply emits_ret|].
    apply emits_bind; [|by intros _]. apply permitted_copy. by left.
  - apply emits_bind; [by apply emits_emit|]. intros _.
    apply emits_remove_dups; [apply permitted_readonly|].
    intros Hdry p res. by repeat split.
Qed.

Lemma permitted_handle_flatten : emits (permitted cfg) (handle_flatten E cfg).
Proof.
  unfold handle_flatten, logf. destruct (flatten cfg) eqn:Hfl; [|apply emits_ret].
  apply emits_bind; [by apply emits_emit|]. intros _.
  apply emits_bind; [apply emits_get_index|]. intros ix.
  generalize (∅ : gmap string Z).
  induction (range_files E (files ix)) as [|file fs IH]; intros filenames; simpl;
    [apply emits_ret|].
  destruct (flattenName filenames (Path file)) as [name filenames'].
  apply emits_bind; [|intros _; apply IH].
  destruct (remove cfg) eqn:Hrm;
    [apply permitted_move | apply permitted_copy]; by right.
Qed.

(** X10: every mutating call of a run is one the flags allow. None is
    made in a dry run; a directory is created only with [dedup] or
    [flatten]; a file is created and written only when copying ([dedup]
    without [rdup], [flatten] without [remove]); [os.Rename] is called
    only when moving ([dedup] with [rdup], [flatten] with [remove]);
    [os.Remove] is called only with [rdup] and without [dedup]. *)
Theorem flags_gate_mutations (args : list string) :
  emits (permitted cfg) (RunE E cfg args).
Proof.
  unfold RunE. destruct args as [|root [|]]; try apply emits_ret.
  apply emits_bind; [by apply emits_stat|]. intros st.
  destruct (is_ErrNotExist st); [apply emits_ret|].
  apply emits_bind.
  { destruct (flatten cfg); [|apply emits_ret].
    apply emits_bind; [by apply emits_stat|]. intros st'.
    destruct (negb (is_ErrNotExist st')); apply emits_ret. }
  intros [e|]; [apply emits_ret|].
  apply emits_bind; [intros w; apply emits_walk, permitted_readonly|].
  intros [e|]; [apply emits_ret|].
  apply emits_bind; [apply permitted_handle_dups|].
  intros [e|]; [apply emits_ret|].
  apply emits_bind; [apply permitted_handle_flatten|]. intros _. apply emits_ret.
Qed.

(** X11: a run with none of [dedup], [rdup] and [flatten] (the defaults)
    only reports: it makes no mutating call and leaves the disk as it
    found it. *)
Theorem plain_run_only_reports (args : list string) (w : World E) :
  dedup cfg = false -> rdup cfg = false -> flatten cfg = false ->
  disk (snd (RunE E cfg args w)) = disk w /\
  exists t, trace (snd (RunE E cfg args w)) = trace w ++ t /\
            Forall (fun e => readonly e = true) t.
Proof.
  intros Hdedup Hrdup Hfl. split.
  - revert w. change (keeps_disk (RunE E cfg args)).
    unfold RunE. destruct args as [|root [|]]; try apply keeps_disk_ret.
    apply keeps_disk_bind; [apply keeps_disk_stat|]. intros st.
    destruct (is_ErrNotExist st); [apply keeps_disk_ret|].
    rewrite Hfl.
    apply keeps_disk_bind; [apply keeps_disk_ret|].
    intros [e|]; [apply keeps_disk_ret|].
    apply keeps_disk_bind; [intros w; apply keeps_disk_walk|].
    intros [e|]; [apply keeps_disk_ret|].
    unfold handle_dups, handle_flatten. rewrite Hdedup, Hrdup, Hfl.
    run_through.
  - destruct (flags_gate_mutations args w) as (t & Ht & HP).
    exists t. split; [done|]. eapply Forall_impl; [exact HP|].
    intros [] Hperm; try done. simpl in Hperm.
    destruct Hperm as [_ Hop]. destruct op; intuition congruence.
Qed.

End Flags_gate.

Lemma plain_run_only_reports_witness :
  disk (snd (RunE pair_env default_flags [ "a/b" ] (init_world pair_env []))) = [].
Proof.
  destruct (plain_run_only_reports (E:=pair_env) default_flags [ "a/b" ]
              (init_world pair_env [])) as [H _];
    [reflexivity | reflexivity | reflexivity | exact H].
Defined.

(** ** What the two executor functions return *)

Ltac in_events H :=
  repeat (apply elem_of_cons in H as [H|H]; [try (by simplify_eq)|]);
  try (by apply elem_of_nil in H).

Section Executor_results.

Context {E : Env} (cfg : Flags).

(** X12: outside a dry run [copyToDirectory] always returns; it returns
    [nil] exactly when it got as far as a successful [Sync] of the copy
    (whatever closing the output file then reports), and any failure of
    creating the directory, creating the file, copying or syncing is the
    error it returns; once the output file is created it is closed, and
    the source is closed whenever the creation of the output was
    attempted. *)
Theorem copyToDirectory_reports (filename destinationDir newFilename : string)
    (w : World E) :
  dryrun cfg = false ->
  let full := destination filename destinationDir newFilename in
  let run := copyToDirectory E cfg filename destinationDir newFilename w in
  exists r t,
    fst run = Ret r /\ trace (snd run) = trace w ++ t /\
    (r = None <-> EvOp (Sync full) None ∈ t) /\
    (forall op e, EvOp op (Some e) ∈ t -> (forall p, op <> CloseOut p) ->
       r = Some e) /\
    (EvOp (Create full) None ∈ t -> exists res, EvOp (CloseOut full) res ∈ t) /\
    ((exists res, EvOp (Create full) res ∈ t) -> EvClose filename ∈ t).
Proof.
  intros Hdry full run. subst run.
  unfold copyToDirectory, logf, close, bind, emit, exec, open. simpl.
  rewrite Hdry. fold full. simpl.
  destruct (os_exec E (MkdirAll (filepath.Dir full)) (disk w)) as [[e1|] d1];
    simpl.
  { eexists _, _. split; [reflexivity|].
    split; [repeat rewrite <- app_assoc; reflexivity|]. simpl.
    split; [split; [done|intros H; in_events H]|].
    split; [intros op e H Hnc; in_events H|].
    split; [intros H; in_events H|intros [res H]; in_events H]. }
  destruct (os_Open E filename d1) as [e2|]; simpl.
  { eexists _, _. split; [reflexivity|].
    split; [repeat rewrite <- app_assoc; reflexivity|]. simpl.
    split; [split; [done|intros H; in_events H]|].
    split; [intros op e H Hnc; in_events H|].
    split; [intros H; in_events H|intros [res H]; in_events H]. }
  destruct (os_exec E (Create full) d1) as [[e3|] d3]; simpl.
  { eexists _, _. split; [reflexivity|].
    split; [repeat rewrite <- app_assoc; reflexivity|]. simpl.
    split; [split; [done|intros H; in_events H]|].
    split; [intros op e H Hnc; in_events H|].
    split; [intros H; in_events H|intros _].
    do 4 apply list_elem_of_further. apply list_elem_of_here. }
  destruct (os_exec E (CopyData filename full) d3) as [[e4|] d4]; simpl.
  { destruct (os_exec E (CloseOut full) d4) as [r5 d5]; simpl.
    eexists _, _. split; [reflexivity|].
    split; [repeat rewrite <- app_assoc; reflexivity|]. simpl.
    split; [split; [done|intros H; in_events H]|].
    split; [intros op e H Hnc; in_events H; simplify_eq; by destruct (Hnc full)|].
    split; [intros _; exists r5|intros _].
    - do 5 apply list_elem_of_further. apply list_elem_of_here.
    - do 6 apply list_elem_of_further. apply list_elem_of_here. }
  destruct (os_exec E (Sync full) d4) as [r5 d5]; simpl.
  destruct (os_exec E (CloseOut full) d5) as [r6 d6]; simpl.
  eexists _, _. split; [reflexivity|].
  split; [repeat rewrite <- app_assoc; reflexivity|]. simpl.
  split; [split|].
  - intros ->. do 5 apply list_elem_of_further. apply list_elem_of_here.
  - intros H. in_events H.
  - split; [intros op e H Hnc; in_events H; simplify_eq; by destruct (Hnc full)|].
    split; [intros _; exists r6|intros _].
    + do 6 apply list_elem_of_further. apply list_elem_of_here.
    + do 7 apply list_elem_of_further. apply list_elem_of_here.
Qed.

(** X13: outside a dry run [moveToDirectory] always returns; it returns
    [nil] exactly when the rename was made and succeeded, a failure of
    creating the directory or of the rename is the error it returns, and
    when the directory cannot be created the rename is not attempted. *)
Theorem moveToDirectory_reports (filename destinationDir newFilename : string)
    (w : World E) :
  dryrun cfg = false ->
  let full := destination filename destinationDir newFilename in
  let run := moveToDirectory E cfg filename destinationDir newFilename w in
  exists r t,
    fst run = Ret r /\ trace (snd run) = trace w ++ t /\
    (r = None <-> EvOp (Rename filename full) None ∈ t) /\
    (forall op e, EvOp op (Some e) ∈ t -> r = Some e) /\
    (forall e, EvOp (MkdirAll (filepath.Dir full)) (Some e) ∈ t ->
       forall res, EvOp (Rename filename full) res ∉ t).
Proof.
  intros Hdry full run. subst run.
  unfold moveToDirectory, logf, bind, emit, exec. simpl.
  rewrite Hdry. fold full. simpl.
  destruct (os_exec E (MkdirAll (filepath.Dir full)) (disk w)) as [[e1|] d1];
    simpl.
  { eexists _, _. split; [reflexivity|].
    split; [repeat rewrite <- app_assoc; reflexivity|]. simpl.
    split; [split; [done|intros H; in_events H]|].
    split; [intros op e H; in_events H|].
    intros e _ res H. in_events H. }
  destruct (os_exec E (Rename filename full) d1) as [[e2|] d2]; simpl.
  - eexists _, _. split; [reflexivity|].
    split; [repeat rewrite <- app_assoc; reflexivity|]. simpl.
    split; [split; [done|intros H; in_events H]|].
    split; [intros op e H; in_events H|].
    intros e H. in_events H.
  - eexists _, _. split; [reflexivity|].
    split; [repeat rewrite <- app_assoc; reflexivity|]. simpl.
    split; [split; [intros _|done]|].
    + do 2 apply list_elem_of_further. apply list_elem_of_here.
    + split; [intros op e H; in_events H|].
      intros e H. in_events H.
Qed.

End Executor_results.

Lemma copyToDirectory_reports_witness :
  exists r, fst (copyToDirectory pair_env copy_aside "a/b/y" "./dupdump" "a/b/y"
                   (init_world pair_env [])) = Ret r.
Proof.
  destruct (copyToDirectory_reports (E:=pair_env) copy_aside "a/b/y" "./dupdump"
              "a/b/y" (init_world pair_env []) eq_refl) as (r & t & H & _).
  exists r. exact H.
Defined.

Lemma moveToDirectory_reports_witness :
  exists r, fst (moveToDirectory pair_env move_aside "a/b/y" "./dupdump" "a/b/y"
                   (init_world pair_env [])) = Ret r.
Proof.
  destruct (moveToDirectory_reports (E:=pair_env) move_aside "a/b/y" "./dupdump"
              "a/b/y" (init_world pair_env []) eq_refl) as (r & t & H & _).
  exists r. exact H.
Defined.

(** ** The earlier revision *)

Section Earlier_facts.

Context {E : Env} (cfg : earlier.Flags).

Lemma earlier_moveToDump_dry filename (w : World E) :
  earlier.dryrun cfg = true ->
  exists w', earlier.moveToDump E cfg filename w = (Ret None, w') /\
             index w' = index w /\ disk w' = disk w.
Proof.
  intros Hdry. unfold earlier.moveToDump. rewrite Hdry.
  eexists. split; [reflexivity|]. by split.
Qed.

Lemma earlier_walkFn_sim v (w0 w : World E) :
  earlier.dryrun cfg = true ->
  files (index w0) = files (index w) -> disk w0 = disk w ->
  fst (earlier.walkFn E cfg v w0) = fst (walkFn E v w) /\
  files (index (snd (earlier.walkFn E cfg v w0)))
  = files (index (snd (walkFn E v w))) /\
  disk (snd (earlier.walkFn E cfg v w0)) = disk (snd (walkFn E v w)) /\
  disk (snd (walkFn E v w)) = disk w.
Proof.
  intros Hdry Hf Hd. destruct w0 as [ix0 d0 t0], w as [ix d t].
  simpl in Hf, Hd. subst d0. unfold earlier.walkFn, walkFn.
  destruct (v_err v) as [e|]; [done|].
  destruct (v_isdir v); [done|].
  unfold bind at 1. simpl.
  destruct (v_size v =? 0); [done|].
  unfold bind, open, readAll, get_index, update_index, logf, emit, close, ret.
  simpl.
  destruct (os_Open E (v_path v) d) as [e|]; [done|]. simpl.
  destruct (os_ReadAll E (v_path v) d) as [e|content]; [done|]. simpl.
  rewrite Hf. unfold observe. simpl.
  destruct (files ix !! sha256_hex E content) as [old|] eqn:Hold; simpl.
  - change (After (Time old) (v_mtime v) || (len (v_path v) <? len (Path old))%nat)
      with (replaces old {| Path := v_path v; Time := v_mtime v |}).
    destruct (replaces old _); simpl.
    + match goal with
      | |- context [ earlier.moveToDump E cfg ?f ?w1 ] =>
          destruct (earlier_moveToDump_dry f w1 Hdry) as (w' & -> & Hi & Hd')
      end.
      simpl. rewrite Hi, Hd'. simpl. by rewrite Hf.
    + match goal with
      | |- context [ earlier.moveToDump E cfg ?f ?w1 ] =>
          destruct (earlier_moveToDump_dry f w1 Hdry) as (w' & -> & Hi & Hd')
      end.
      simpl. rewrite Hi, Hd'. simpl. by rewrite Hf.
  - by rewrite Hf.
Qed.

(** X14: in a dry run the earlier revision and the current one agree on
    the walk: the same result, the same canonical map [files] and an
    unchanged disk, for every sequence of visits. *)
Theorem earlier_same_canonical (vs : list Visit) (w : World E) :
  earlier.dryrun cfg = true ->
  fst (earlier.walk E cfg vs w) = fst (walk E vs w) /\
  files (index (snd (earlier.walk E cfg vs w)))
  = files (index (snd (walk E vs w))) /\
  disk (snd (earlier.walk E cfg vs w)) = disk w.
Proof.
  intros Hdry.
  assert (forall w0 w1 : World E,
            files (index w0) = files (index w1) -> disk w0 = disk w1 ->
            fst (earlier.walk E cfg vs w0) = fst (walk E vs w1) /\
            files (index (snd (earlier.walk E cfg vs w0)))
            = files (index (snd (walk E vs w1))) /\
            disk (snd (earlier.walk E cfg vs w0)) = disk w1) as Hgen.
  { induction vs as [|v vs IH]; intros w0 w1 Hf Hd; [done|].
    simpl. unfold bind.
    destruct (earlier_walkFn_sim v w0 w1 Hdry Hf Hd) as (Hr & Hf' & Hd' & Hd1).
    destruct (earlier.walkFn E cfg v w0) as [r0 w0'].
    destruct (walkFn E v w1) as [r1 w1']. simpl in *. subst r0.
    destruct r1 as [[e|]|st]; simpl; [by rewrite Hd', Hd1| |by rewrite Hd', Hd1].
    rewrite <- Hd1. by apply IH. }
  by apply Hgen.
Qed.

(** X15: in the earlier revision, outside a dry run, a file whose digest
    already has a canonical record [old] leaves the better of the two as
    canonical and moves the other: the only rename the callback makes is
    of the path of the loser to that path under the dump directory; it is
    made whenever the directory can be created, and its result is what
    the callback returns. *)
Theorem earlier_moves_the_loser (v : Visit) (c : string) (old : PathTime)
    (w : World E) :
  earlier.dryrun cfg = false ->
  hashes_to (disk w) v c ->
  files (index w) !! sha256_hex E c = Some old ->
  let l := loser old (record_of v) in
  let full := filepath.Join [ earlier.dupDump cfg; Path l ] in
  let run := earlier.walkFn E cfg v w in
  exists r t,
    fst run = Ret r /\ trace (snd run) = trace w ++ t /\
    files (index (snd run)) !! sha256_hex E c
    = Some (if replaces old (record_of v) then record_of v else old) /\
    (forall src dst res, EvOp (Rename src dst) res ∈ t ->
       src = Path l /\ dst = full /\ r = res) /\
    (fst (os_exec E (MkdirAll (filepath.Dir full)) (disk w)) = None ->
     EvOp (Rename (Path l) full) r ∈ t).
Proof.
  intros Hdry (He & Hdir & Hs & Ho & Hr) Hold l full run. subst run full l.
  destruct w as [ix d t]. simpl in Ho, Hr, Hold |- *.
  apply Z.eqb_neq in Hs.
  unfold earlier.walkFn. rewrite He, Hdir.
  unfold bind, open, readAll, get_index, update_index, close, logf, emit, ret.
  simpl. rewrite Hs. simpl. rewrite Ho. simpl. rewrite Hr. simpl. rewrite Hold.
  change (After (Time old) (v_mtime v) || (len (v_path v) <? len (Path old))%nat)
    with (replaces old (record_of v)).
  change {| Path := v_path v; Time := v_mtime v |} with (record_of v).
  unfold loser.
  destruct (replaces old (record_of v)); simpl;
    unfold earlier.moveToDump, bind, logf, emit, exec; simpl;
    rewrite Hdry; simpl;
    (destruct (os_exec E (MkdirAll _) d) as [[e1|] d1]; simpl;
     [|destruct (os_exec E (Rename _ _) d1) as [res d2]; destruct res as [e2|];
       simpl]);
    (eexists _, _; split; [reflexivity|];
     split; [repeat rewrite <- app_assoc; reflexivity|]; simpl;
     split; [try apply lookup_insert_eq; try exact Hold|];
     split; [intros src dst res H; in_events H; by simplify_eq|];
     intros Hmk; try discriminate Hmk).
  all: do 5 apply list_elem_of_further; apply list_elem_of_here.
Qed.

End Earlier_facts.

Lemma earlier_same_canonical_witness :
  fst (earlier.walk pair_env earlier_dry [ visit_x; visit_y ]
         (init_world pair_env []))
  = fst (walk pair_env [ visit_x; visit_y ] (init_world pair_env [])).
Proof.
  destruct (earlier_same_canonical (E:=pair_env) earlier_dry
              [ visit_x; visit_y ] (init_world pair_env [])) as [H _];
    [reflexivity | exact H].
Defined.

Lemma earlier_moves_the_loser_witness :
  exists r (t : list Event),
    fst (earlier.walkFn pair_env earlier_real visit_y
           (Build_World pair_env (observe "A" (record_of visit_x) empty_index)
              [] [])) = Ret r /\
    EvOp (Rename "a/b/y" "dupdump/a/b/y") r ∈ t.
Proof.
  destruct (earlier_moves_the_loser (E:=pair_env) earlier_real visit_y "A"
              (record_of visit_x)
              (Build_World pair_env (observe "A" (record_of visit_x) empty_index)
                 [] []))
    as (r & t & Hr & _ & _ & _ & Hmove).
  - reflexivity.
  - unfold hashes_to. simpl. repeat split; try reflexivity. lia.
  - simpl. rewrite observe_files_eq. reflexivity.
  - exists r, t. split; [exact Hr|]. apply Hmove. reflexivity.
Defined.

(** ** The walk and the index, the flatten loop and the namer *)

Section Composition.

Context {E : Env} (cfg : Flags).

(** X16: a walk on which the callback never fails returns [nil], leaves
    the disk alone, and its effect on the two maps is that of observing,
    in the order of the walk, the regular non-empty files with the
    digests of their contents; directories and empty files contribute
    nothing. *)
Theorem walk_observes (vs : list Visit) (w : World E) :
  Forall (walks_on (disk w)) vs ->
  fst (walk E vs w) = Ret None /\
  disk (snd (walk E vs w)) = disk w /\
  index (snd (walk E vs w)) = observe_all (observations (disk w) vs) (index w).
Proof.
  revert w. induction vs as [|v vs IH]; intros w Hall; [done|].
  apply Forall_cons in Hall as [Hv Hall].
  assert (exists w1, walkFn E v w = (Ret None, w1) /\ disk w1 = disk w /\
            index w1 = observe_all (observations (disk w) [ v ]) (index w))
    as (w1 & Hw1 & Hd1 & Hi1).
  { destruct Hv as (He & [Hd | [Hz | (c & Hc)]]).
    - exists w. rewrite walkFn_dir by done. unfold observations. simpl.
      by rewrite Hd.
    - destruct (v_isdir v) eqn:Hd.
      + exists w. rewrite walkFn_dir by done. unfold observations. simpl.
        by rewrite Hd.
      + eexists. rewrite walkFn_skip by done. unfold observations. simpl.
        by rewrite Hd, Hz.
    - destruct (walkFn_hashes v c w Hc) as (w1 & Hw1 & Hd1 & Hi1).
      exists w1. split; [done|]. split; [done|].
      destruct Hc as (_ & Hd & Hs & _ & Hr). apply Z.eqb_neq in Hs.
      unfold observations. simpl. by rewrite Hd, Hs, Hr. }
  rewrite (walk_cons_nil _ _ _ _ Hw1).
  rewrite <- Hd1 in Hall. destruct (IH w1 Hall) as (Hr & Hd & Hi).
  split; [done|]. split; [congruence|].
  rewrite Hi, Hi1, Hd1.
  change (v :: vs) with ([ v ] ++ vs).
  unfold observations, observe_all. by rewrite flat_map_app, fold_left_app.
Qed.

(** X17: in a dry run the flatten loop logs, for each canonical file in
    the order of the range, one line announcing the copy or the move of
    the file to the name the namer gives it, and nothing else. *)
Theorem flatten_announces_names (fs : list PathTime) (filenames : gmap string Z)
    (w : World E) :
  dryrun cfg = true ->
  fst (flatten_files E cfg filenames fs w) = Ret tt /\
  trace (snd (flatten_files E cfg filenames fs w))
  = trace w ++ zip_with (flatten_notice cfg) fs (flatten_names filenames fs).
Proof.
  intros Hdry. revert filenames w.
  induction fs as [|file fs IH]; intros filenames w; simpl.
  - by rewrite app_nil_r.
  - destruct (flattenName filenames (Path file)) as [name filenames'].
    unfold bind.
    assert (exists w1,
              (if remove cfg
               then moveToDirectory E cfg (Path file) (fdir cfg) name
               else copyToDirectory E cfg (Path file) (fdir cfg) name) w
              = (Ret None, w1) /\
              trace w1 = trace w ++ [ flatten_notice cfg file name ])
      as (w1 & -> & Ht1).
    { unfold flatten_notice.
      destruct (remove cfg);
        unfold moveToDirectory, copyToDirectory, bind, logf, emit;
        simpl; rewrite Hdry; eexists; split; reflexivity. }
    destruct (IH filenames' w1) as [Hr Ht]. split; [exact Hr|].
    rewrite Ht, Ht1, <- app_assoc. reflexivity.
Qed.

End Composition.

Lemma walk_observes_witness :
  index (snd (walk pair_env [ visit_x; visit_y ] (init_world pair_env [])))
  = observe_all [ ("A", record_of visit_x); ("A", record_of visit_y) ] empty_index.
Proof.
  destruct (walk_observes (E:=pair_env) [ visit_x; visit_y ]
              (init_world pair_env [])) as (_ & _ & H).
  - apply List.Forall_cons; [|apply List.Forall_cons; [|apply List.Forall_nil]];
      (split; [reflexivity|]; right; right; exists "A";
       unfold hashes_to; simpl; repeat split; try reflexivity; lia).
  - exact H.
Defined.

Lemma flatten_announces_names_witness :
  fst (flatten_files pair_env dry_everything ∅ three_x (init_world pair_env []))
  = Ret tt.
Proof.
  destruct (flatten_announces_names (E:=pair_env) dry_everything three_x ∅
              (init_world pair_env [])) as [H _]; [reflexivity | exact H].
Defined.
